(** * imap-mailbox: a shallow embedding of [Imap.ts] and [Mail.ts]

    The development follows the TypeScript sources.  JavaScript values are
    modelled as follows.

    - A [number] that holds a message identifier, a sequence number or a
      duration in milliseconds is a [Z]; the delay handed to [setTimeout] is a
      [Q], because [watchErrors] divides a duration by 1000.
    - A [string] is a [String.string]; each character stands for one code
      unit (code units below 256).
    - [undefined] in an optional position is [None].
    - An [async] method is a state transformer over the fields of the [Imap]
      object, the state of the remote store and the trace of observable
      actions.  A rejected promise, or a thrown exception, is the completion
      [Throw]; the state reached at the moment of the throw is kept, since
      JavaScript does not roll back effects.
    - The [imapflow] client is an external collaborator.  Its answers are read
      from response tapes, one per kind of call, so that every behaviour of
      the client along one execution is a choice of tapes.
    - Asynchronous tasks are run one at a time: interleaving of timers with a
      running method is outside the model.
    - [EventEmitter.emit] is recorded in the trace; the callbacks registered
      with [on] are taken to return normally, and [on] itself, which only
      registers them, is not modelled.  The private [imap] field of [Mail] is
      left out; its methods [delete], [see] and [unsee] forward to [Imap]
      without awaiting the answer, and are modelled as calls whose outcome is
      dropped. *)

From Stdlib Require Import ZArith QArith List String Ascii Bool Lia.
From Stdlib Require Import DecimalString Sorted.
From stdpp Require Import base option gmap strings.

Local Open Scope Z_scope.
Local Open Scope string_scope.
Import ListNotations.

(** ** JavaScript string primitives used by [Mail.parseContent] *)

Module JsString.

Definition LF : string := String "010"%char EmptyString.

(** [s.split(sep)] for a non-empty separator: [skip] counts the code units
    of a separator occurrence still to be jumped over, [cur] is the piece
    being accumulated. *)
Fixpoint split_go (sep : string) (skip : nat) (cur s : string) : list string :=
  match s with
  | EmptyString => [cur]
  | String c s' =>
      match skip with
      | S k => split_go sep k cur s'
      | O =>
          if String.prefix sep s
          then cur :: split_go sep (String.length sep - 1) EmptyString s'
          else split_go sep 0 (cur ++ String c EmptyString) s'
      end
  end.

Fixpoint code_units (s : string) : list string :=
  match s with
  | EmptyString => []
  | String c s' => String c EmptyString :: code_units s'
  end.

(** [String.prototype.split]: an empty separator cuts between all code
    units (and yields the empty array on the empty string). *)
Definition split (sep s : string) : list string :=
  match sep with
  | EmptyString => code_units s
  | _ => split_go sep 0 EmptyString s
  end.

(** [s.slice(0, -2)] *)
Definition slice_0_m2 (s : string) : string :=
  String.substring 0 (String.length s - 2) s.

(** White space and line terminators recognised by [trim], among the code
    units below 256: TAB, LF, VT, FF, CR, SP and NBSP. *)
Definition is_space (c : ascii) : bool :=
  let n := nat_of_ascii c in
  (Nat.eqb n 9 || Nat.eqb n 10 || Nat.eqb n 11 || Nat.eqb n 12
   || Nat.eqb n 13 || Nat.eqb n 32 || Nat.eqb n 160)%bool.

Fixpoint trimStart (s : string) : string :=
  match s with
  | EmptyString => EmptyString
  | String c s' => if is_space c then trimStart s' else s
  end.

Fixpoint trimEnd (s : string) : string :=
  match s with
  | EmptyString => EmptyString
  | String c s' =>
      match trimEnd s' with
      | EmptyString => if is_space c then EmptyString else String c EmptyString
      | t => String c t
      end
  end.

Definition trim (s : string) : string := trimEnd (trimStart s).

(** [xs.join(',')] on an array of integers. *)
Definition string_of_Z (z : Z) : string := NilZero.string_of_int (Z.to_int z).

Fixpoint join (sep : string) (xs : list string) : string :=
  match xs with
  | [] => EmptyString
  | [x] => x
  | x :: rest => x ++ sep ++ join sep rest
  end.

End JsString.

(** ** Completions: a value, or a thrown exception *)

Inductive completion (A : Type) : Type :=
| Normal (a : A)
| Throw.
Arguments Normal {A} a.
Arguments Throw {A}.

(** ** [Mail.ts] *)

(** The fields of mailparser's [ParsedMail] that the sources read. *)
Record ParsedMail : Type := mkParsedMail {
  pm_subject : option string;
  pm_from : option string;
  pm_text : option string;
}.

(** The fields of imapflow's [FetchMessageObject] that the sources read:
    [headers] is the header buffer and [bodyPart] is
    [msg.bodyParts.get('text')]. *)
Record FetchMessageObject : Type := mkMsg {
  msg_uid : Z;
  msg_seq : Z;
  msg_headers : string;
  msg_bodyPart : option string;
}.

Record Mail : Type := mkMail {
  uid : Z;
  seq : Z;
  subject : string;
  from : option string;
  content : string;
  mailboxPath : string;
  parsedMail : ParsedMail;
}.

Module MailImpl.
Import JsString.

(** The body of the [try] block of [parseContent].  [Normal None] is the
    fall-through when [content] is [undefined]; [Throw] is the [TypeError]
    raised by [.slice] or [.trim] on [undefined]. *)
Definition parseContent_try (text : option string) : completion (option string) :=
  match text with
  | None => Normal None
  | Some content =>
      let textLines := split LF content in
      let textLines := removelast textLines in          (* textLines.pop() *)
      match last textLines with                          (* textLines[length - 1] *)
      | None => Throw
      | Some line =>
          let separator := slice_0_m2 line in
          match head (split separator content) with     (* ...split(separator)[0] *)
          | None => Throw
          | Some separatedText => Normal (Some (trim separatedText))
          end
      end
  end.

Definition parseContent (text : option string) : string :=
  match parseContent_try text with
  | Normal (Some text) => text
  | Normal None => EmptyString
  | Throw => EmptyString                                 (* catch (e) { return '' } *)
  end.

(** [a || ''] on an optional string: the empty string is falsy. *)
Definition or_empty (a : option string) : string :=
  match a with
  | Some (String c s) => String c s
  | _ => EmptyString
  end.

(** [new Mail(imap, mailboxPath, msg, parsedMail)] *)
Definition new_Mail (mailboxPath : string) (msg : FetchMessageObject)
    (parsed : ParsedMail) : Mail :=
  {| uid := msg_uid msg;
     seq := msg_seq msg;
     subject := or_empty (pm_subject parsed);
     from := pm_from parsed;
     content := parseContent (Some (or_empty (pm_text parsed)));
     mailboxPath := mailboxPath;
     parsedMail := parsed |}.

End MailImpl.

(** ** Interfaces and external collaborators *)

(** [ImapConfig.interface.ts], with the one field of [ImapFlowOptions] that
    the sources read ([auth.user]). *)
Record ImapConfig : Type := mkConfig {
  auth_user : string;
  logging : option bool;
  reconnectInterval : option Z;
  mailboxesToWatch : option (list string);
  mailboxesWatchInterval : option Z;
}.

(** [Mailbox.interface.ts], as [Imap.ts] builds and reads it. *)
Record Mailbox : Type := mkMailbox {
  path : string;
  lastUid : Z;
}.

(** Modelled from the spec: [UidsList.interface.ts] and [utils.ts] are not
    among the sources.  The selector is "a union -- either an explicit ordered
    set of identifiers, or a set of Message references", and it is "always
    normalized to a deduplicated ordered set of identifiers": the first
    occurrence of each identifier is kept, in input order. *)
Inductive UidsList : Type :=
| FromUids (uids : list Z)
| FromMails (mails : list Mail).

(** Modelled from the spec: the deduplication of [uidsAndMailsToUids], which
    keeps the first occurrence of each identifier ([seen] holds the
    identifiers already kept). *)
Fixpoint dedup_first (seen : list Z) (xs : list Z) : list Z :=
  match xs with
  | [] => []
  | x :: rest =>
      if existsb (Z.eqb x) seen then dedup_first seen rest
      else x :: dedup_first (x :: seen) rest
  end.

(** Modelled from the spec: [uidsAndMailsToUids] of [utils.ts] (see
    [UidsList]). *)
Definition uidsAndMailsToUids (selector : UidsList) : list Z :=
  match selector with
  | FromUids uids => dedup_first [] uids
  | FromMails mails => dedup_first [] (uid <$> mails)
  end.

Definition DEFAULT_RECONNECT_INTERVAL : Z := 1000 * 60.
Definition DEFAULT_MAILBOXES_INTERVAL : Z := 1000 * 60.

(** [x || d] on an optional number: [undefined] and [0] are falsy. *)
Definition or_default (x : option Z) (d : Z) : Z :=
  match x with
  | None => d
  | Some 0 => d
  | Some v => v
  end.

(** What a timer runs: [this.run.bind(this)],
    [this.emitLoadedMails.bind(this)], [this.watchMailbox.bind(this, p)]. *)
Inductive Task : Type :=
| TaskRun
| TaskEmitLoadedMails
| TaskWatchMailbox (mailboxToWatch : string).

Inductive SearchRange : Type :=
| RangeString (range : string)
| RangeSeen (seen : bool).

(** The messages of [Logger.log], by the place that writes them. *)
Inductive LogMessage : Type :=
| LogTrying
| LogConnected
| LogCouldNotConnect
| LogErrorDetected (seconds : Q)
| LogLoaded (size : nat)
| LogWatching (mailboxToWatch : string) (seconds : Q)
| LogErrorWatching (mailboxToWatch : string).

(** Observable actions, in the order the program performs them. *)
Inductive Action : Type :=
| NewImapFlow
| ClientConnect
| ClientOnError
| ClientList
| GetMailboxLock (mailboxPath : string)
| Release (mailboxPath : string)
| Fetch (range : SearchRange)
| MessageDelete (uids : string)
| MessageFlagsAdd (uids : string) (flags : list string)
| MessageFlagsRemove (uids : string) (flags : list string)
| EmitNewMail (mail : Mail)
| EmitLoadedMail (mail : Mail)
| EmitDeletedMail (uid : Z)
| SetTimeout (task : Task) (delay : Q)
| SetInterval (task : Task) (delay : Q)
| Log (message : LogMessage).

(** The lock object returned by [getMailboxLock]. *)
Record MailboxLockObject : Type := mkLock { lock_path : string }.

(** The answers of the collaborators.  Each call of the client takes the
    next answer of its tape; an exhausted tape answers by throwing.  For
    [getMailboxLock] the answer [true] stands for a lock object and [false]
    for a falsy value.  [simpleParser] is mailparser's parser. *)
Record Collaborators : Type := mkCollaborators {
  connect_tape : list (completion unit);
  list_tape : list (completion (list string));
  lock_tape : list (completion bool);
  fetch_tape : list (completion (list FetchMessageObject));
  delete_tape : list (completion bool);
  flags_tape : list (completion bool);
  simpleParser : string -> completion ParsedMail;
}.

(** The fields of the [Imap] object, the collaborators and the trace. *)
Record Imap : Type := mkImap {
  config : ImapConfig;
  mailboxes : gmap string Mailbox;
  loadedMails : list Mail;
  world : Collaborators;
  trace : list Action;
}.

(** [new Imap(config)] *)
Definition new_Imap (cfg : ImapConfig) (w : Collaborators) : Imap :=
  {| config := cfg; mailboxes := ∅; loadedMails := []; world := w; trace := [] |}.

(** ** The monad of asynchronous methods *)

Definition M (A : Type) : Type := Imap -> completion A * Imap.

Definition ret {A} (a : A) : M A := fun st => (Normal a, st).

Definition bind {A B} (c : M A) (k : A -> M B) : M B :=
  fun st =>
    match c st with
    | (Normal a, st') => k a st'
    | (Throw, st') => (Throw, st')
    end.

Definition raise {A} : M A := fun st => (Throw, st).

(** [try { c } catch (e) { handler }] *)
Definition try_catch {A} (c : M A) (handler : M A) : M A :=
  fun st =>
    match c st with
    | (Normal a, st') => (Normal a, st')
    | (Throw, st') => handler st'
    end.

Declare Scope imap_scope.
Delimit Scope imap_scope with imap.
Notation "x <- c ;; k" := (bind c (fun x => k))
  (at level 100, c at next level, right associativity) : imap_scope.
Notation "c ;; k" := (bind c (fun _ => k))
  (at level 100, right associativity) : imap_scope.
Local Open Scope imap_scope.

(** [for (const x of xs) { body x }] *)
Fixpoint for_of {A} (xs : list A) (body : A -> M unit) : M unit :=
  match xs with
  | [] => ret tt
  | x :: rest => body x ;; for_of rest body
  end.

Definition get {A} (f : Imap -> A) : M A := fun st => (Normal (f st), st).

Definition set_trace (t : list Action) (st : Imap) : Imap :=
  {| config := config st; mailboxes := mailboxes st; loadedMails := loadedMails st;
     world := world st; trace := t |}.

Definition set_world (w : Collaborators) (st : Imap) : Imap :=
  {| config := config st; mailboxes := mailboxes st; loadedMails := loadedMails st;
     world := w; trace := trace st |}.

Definition set_mailboxes (m : gmap string Mailbox) (st : Imap) : Imap :=
  {| config := config st; mailboxes := m; loadedMails := loadedMails st;
     world := world st; trace := trace st |}.

Definition set_loadedMails (l : list Mail) (st : Imap) : Imap :=
  {| config := config st; mailboxes := mailboxes st; loadedMails := l;
     world := world st; trace := trace st |}.

(** Performing an observable action appends it to the trace. *)
Definition act (a : Action) : M unit :=
  fun st => (Normal tt, set_trace (trace st ++ [a]) st).

(** Taking the next answer of a tape. *)
Definition answer {A} (tape : Collaborators -> list (completion A))
    (rest : list (completion A) -> Collaborators -> Collaborators) : M A :=
  fun st =>
    match tape (world st) with
    | [] => (Throw, st)
    | r :: tl => (r, set_world (rest tl (world st)) st)
    end.

Definition with_connect_tape t w :=
  {| connect_tape := t; list_tape := list_tape w; lock_tape := lock_tape w;
     fetch_tape := fetch_tape w; delete_tape := delete_tape w;
     flags_tape := flags_tape w; simpleParser := simpleParser w |}.
Definition with_list_tape t w :=
  {| connect_tape := connect_tape w; list_tape := t; lock_tape := lock_tape w;
     fetch_tape := fetch_tape w; delete_tape := delete_tape w;
     flags_tape := flags_tape w; simpleParser := simpleParser w |}.
Definition with_lock_tape t w :=
  {| connect_tape := connect_tape w; list_tape := list_tape w; lock_tape := t;
     fetch_tape := fetch_tape w; delete_tape := delete_tape w;
     flags_tape := flags_tape w; simpleParser := simpleParser w |}.
Definition with_fetch_tape t w :=
  {| connect_tape := connect_tape w; list_tape := list_tape w; lock_tape := lock_tape w;
     fetch_tape := t; delete_tape := delete_tape w;
     flags_tape := flags_tape w; simpleParser := simpleParser w |}.
Definition with_delete_tape t w :=
  {| connect_tape := connect_tape w; list_tape := list_tape w; lock_tape := lock_tape w;
     fetch_tape := fetch_tape w; delete_tape := t;
     flags_tape := flags_tape w; simpleParser := simpleParser w |}.
Definition with_flags_tape t w :=
  {| connect_tape := connect_tape w; list_tape := list_tape w; lock_tape := lock_tape w;
     fetch_tape := fetch_tape w; delete_tape := delete_tape w;
     flags_tape := t; simpleParser := simpleParser w |}.

(** ** Calls to the collaborators *)

(** [Logger.log]: writes only when logging was switched on. *)
Definition log (message : LogMessage) : M unit :=
  fun st =>
    match logging (config st) with
    | Some true => act (Log message) st
    | _ => (Normal tt, st)
    end.

Definition new_ImapFlow : M unit := act NewImapFlow.

Definition client_connect : M unit :=
  act ClientConnect ;; answer connect_tape with_connect_tape.

Definition client_on_error : M unit := act ClientOnError.

Definition client_list : M (list string) :=
  act ClientList ;; answer list_tape with_list_tape.

Definition getMailboxLock (mailboxPath : string) : M (option MailboxLockObject) :=
  act (GetMailboxLock mailboxPath) ;;
  granted <- answer lock_tape with_lock_tape ;;
  ret (if granted : bool then Some (mkLock mailboxPath) else None).

Definition release (lock : MailboxLockObject) : M unit :=
  act (Release (lock_path lock)).

Definition client_fetch (range : SearchRange) : M (list FetchMessageObject) :=
  act (Fetch range) ;; answer fetch_tape with_fetch_tape.

Definition messageDelete (uids : string) : M bool :=
  act (MessageDelete uids) ;; answer delete_tape with_delete_tape.

Definition messageFlagsAdd (uids : string) (flags : list string) : M bool :=
  act (MessageFlagsAdd uids flags) ;; answer flags_tape with_flags_tape.

Definition messageFlagsRemove (uids : string) (flags : list string) : M bool :=
  act (MessageFlagsRemove uids flags) ;; answer flags_tape with_flags_tape.

Definition mailparser_simpleParser (source : string) : M ParsedMail :=
  fun st => (simpleParser (world st) source, st).

(** [Object.assign(headers, body)] on the fields that are read: a field of
    [body] overrides the field of [headers]. *)
Definition Object_assign (headers body : ParsedMail) : ParsedMail :=
  {| pm_subject := match pm_subject body with Some v => Some v | None => pm_subject headers end;
     pm_from := match pm_from body with Some v => Some v | None => pm_from headers end;
     pm_text := match pm_text body with Some v => Some v | None => pm_text headers end |}.

Definition setTimeout (task : Task) (delay : Q) : M unit := act (SetTimeout task delay).
Definition setInterval (task : Task) (delay : Q) : M unit := act (SetInterval task delay).

(** [uids.join(',')] *)
Definition join_uids (uids : list Z) : string :=
  JsString.join "," (JsString.string_of_Z <$> uids).

Definition Seen : list string := ["\Seen"].

(** ** [Imap.ts] *)

Module ImapImpl.

Definition restart : M unit :=
  log LogCouldNotConnect ;;
  cfg <- get config ;;
  setTimeout TaskRun
    (inject_Z (or_default (reconnectInterval cfg) DEFAULT_RECONNECT_INTERVAL)).

Definition connect : M unit :=
  try_catch
    (log LogTrying ;;
     new_ImapFlow ;;
     client_connect ;;
     log LogConnected)
    restart.

(** The callback that [watchErrors] registers for the client's ['error']
    event. *)
Definition on_error_callback : M unit :=
  cfg <- get config ;;
  let timeout :=
    (inject_Z (or_default (reconnectInterval cfg) DEFAULT_RECONNECT_INTERVAL)
     / inject_Z 1000)%Q in
  log (LogErrorDetected timeout) ;;
  setTimeout TaskRun timeout.

Definition watchErrors : M unit := client_on_error.

Definition search (mailboxPath : string) (range : SearchRange)
    : M (list FetchMessageObject) :=
  mailbox <- getMailboxLock mailboxPath ;;
  match mailbox with
  | Some lock =>
      msgs <- client_fetch range ;;
      release lock ;;
      ret msgs
  | None => ret []
  end.

Definition getNewMail (mailboxPath : string) (msg : FetchMessageObject) : M Mail :=
  headers <- mailparser_simpleParser (msg_headers msg) ;;
  match msg_bodyPart msg with
  | Some bodyPart =>
      body <- mailparser_simpleParser bodyPart ;;
      ret (MailImpl.new_Mail mailboxPath msg (Object_assign headers body))
  | None => ret (MailImpl.new_Mail mailboxPath msg headers)
  end.

Definition push_loadedMail (mail : Mail) : M unit :=
  fun st => (Normal tt, set_loadedMails (loadedMails st ++ [mail]) st).

Fixpoint getLastUid_loop (mailboxPath : string) (loading : bool)
    (msgs : list FetchMessageObject) (lastUid : Z) : M Z :=
  match msgs with
  | [] => ret lastUid
  | msg :: rest =>
      let lastUid := if msg_uid msg >? lastUid then msg_uid msg else lastUid in
      (if loading
       then mail <- getNewMail mailboxPath msg ;; push_loadedMail mail
       else ret tt) ;;
      getLastUid_loop mailboxPath loading rest lastUid
  end.

Definition getLastUid (mailboxPath : string) (loading : bool) : M Z :=
  msgs <- search mailboxPath (RangeString "1:*") ;;
  getLastUid_loop mailboxPath loading msgs 1.

Fixpoint getLastMails_loop (mailbox : Mailbox) (msgs : list FetchMessageObject)
    (mails : list Mail) : M (list Mail) :=
  match msgs with
  | [] => ret mails
  | msg :: rest =>
      if msg_uid msg >? lastUid mailbox
      then mail <- getNewMail (path mailbox) msg ;;
           getLastMails_loop mailbox rest (mails ++ [mail])
      else getLastMails_loop mailbox rest mails
  end.

Definition getLastMails (mailbox : Mailbox) : M (list Mail) :=
  msgs <- search (path mailbox) (RangeString "1:*") ;;
  getLastMails_loop mailbox msgs [].

Definition mailboxes_set (key : string) (mailbox : Mailbox) : M unit :=
  fun st => (Normal tt, set_mailboxes (<[key := mailbox]> (mailboxes st)) st).

Definition loadMailboxes : M unit :=
  listResponses <- client_list ;;
  for_of listResponses (fun list_path =>
    lastUid <- getLastUid list_path true ;;
    let mailbox := {| path := list_path; lastUid := lastUid |} in
    mailboxes_set (path mailbox) mailbox) ;;
  m <- get mailboxes ;;
  log (LogLoaded (size m)).

(** One poll.  The object found under [mailboxToWatch] is updated in place
    ([mailbox.lastUid = ...]) and then stored under its own [path]. *)
Definition watchMailbox (mailboxToWatch : string) : M unit :=
  try_catch
    (m <- get mailboxes ;;
     match m !! mailboxToWatch with
     | Some mailbox =>
         mails <- getLastMails mailbox ;;
         match last mails with
         | Some newest =>
             let mailbox' := {| path := path mailbox; lastUid := uid newest |} in
             mailboxes_set mailboxToWatch mailbox' ;;
             mailboxes_set (path mailbox') mailbox' ;;
             for_of mails (fun mail => act (EmitNewMail mail))
         | None => ret tt
         end
     | None => ret tt
     end)
    (log (LogErrorWatching mailboxToWatch)).

Definition watchMailboxes : M unit :=
  cfg <- get config ;;
  match mailboxesToWatch cfg with
  | Some toWatch =>
      for_of toWatch (fun mailboxToWatch =>
        let interval :=
          or_default (mailboxesWatchInterval cfg) DEFAULT_MAILBOXES_INTERVAL in
        log (LogWatching mailboxToWatch (inject_Z interval / inject_Z 1000)%Q) ;;
        watchMailbox mailboxToWatch ;;
        setInterval (TaskWatchMailbox mailboxToWatch) (inject_Z interval))
  | None => ret tt
  end.

Definition emitLoadedMails : M unit :=
  loaded <- get loadedMails ;;
  for_of loaded (fun loadedMail => act (EmitLoadedMail loadedMail)) ;;
  fun st => (Normal tt, set_loadedMails [] st).

(** [run]: [watchErrors] is called without [await]; it has no suspension
    point, so its body runs before [loadMailboxes] starts. *)
Definition run : M unit :=
  connect ;;
  watchErrors ;;
  loadMailboxes ;;
  watchMailboxes ;;
  setTimeout TaskEmitLoadedMails (inject_Z 1000).

Definition deleteMails (mailboxPath : string) (toDelete : UidsList) : M bool :=
  let uids := uidsAndMailsToUids toDelete in
  mailbox <- getMailboxLock mailboxPath ;;
  match mailbox with
  | Some lock =>
      result <- messageDelete (join_uids uids) ;;
      (if result : bool
       then for_of uids (fun uid => act (EmitDeletedMail uid))
       else ret tt) ;;
      release lock ;;
      ret result
  | None => ret false
  end.

Definition seeMails (mailboxPath : string) (toSee : UidsList) : M bool :=
  let uids := uidsAndMailsToUids toSee in
  mailbox <- getMailboxLock mailboxPath ;;
  match mailbox with
  | Some lock =>
      result <- messageFlagsAdd (join_uids uids) Seen ;;
      release lock ;;
      ret result
  | None => ret false
  end.

Definition unseeMails (mailboxPath : string) (toUnsee : UidsList) : M bool :=
  let uids := uidsAndMailsToUids toUnsee in
  mailbox <- getMailboxLock mailboxPath ;;
  match mailbox, uids with
  | Some lock, _ :: _ =>
      result <- messageFlagsRemove (join_uids uids) Seen ;;
      release lock ;;
      ret result
  | _, _ => ret false
  end.

(** The loop shared by [getUnseenMails], [getSeenMails] and [getAllMails]:
    every message found becomes a [Mail], in the order of the search. *)
Fixpoint mails_of (mailboxPath : string) (msgs : list FetchMessageObject)
    (mails : list Mail) : M (list Mail) :=
  match msgs with
  | [] => ret mails
  | msg :: rest =>
      mail <- getNewMail mailboxPath msg ;;
      mails_of mailboxPath rest (mails ++ [mail])%list
  end.

Definition getUnseenMails (mailboxPath : string) : M (list Mail) :=
  msgs <- search mailboxPath (RangeSeen false) ;;
  mails_of mailboxPath msgs [].

Definition getSeenMails (mailboxPath : string) : M (list Mail) :=
  msgs <- search mailboxPath (RangeSeen true) ;;
  mails_of mailboxPath msgs [].

Definition getAllMails (mailboxPath : string) : M (list Mail) :=
  msgs <- search mailboxPath (RangeString "1:*") ;;
  mails_of mailboxPath msgs [].

Definition getMailboxes : M (gmap string Mailbox) := get mailboxes.

(** What a timer that fires runs. *)
Definition run_task (task : Task) : M unit :=
  match task with
  | TaskRun => run
  | TaskEmitLoadedMails => emitLoadedMails
  | TaskWatchMailbox mailboxToWatch => watchMailbox mailboxToWatch
  end.

End ImapImpl.

(** ** The three mutation operations, seen uniformly *)

Inductive Mutation : Type := Delete | MarkSeen | MarkUnseen.

Definition mutate (op : Mutation) (mailboxPath : string) (selector : UidsList) : M bool :=
  match op with
  | Delete => ImapImpl.deleteMails mailboxPath selector
  | MarkSeen => ImapImpl.seeMails mailboxPath selector
  | MarkUnseen => ImapImpl.unseeMails mailboxPath selector
  end.

(** The tape that answers the store operation of a mutation. *)
Definition store_tape (op : Mutation) (w : Collaborators) : list (completion bool) :=
  match op with
  | Delete => delete_tape w
  | MarkSeen | MarkUnseen => flags_tape w
  end.

(** The store operation that a mutation issues. *)
Definition store_call (op : Mutation) (uids : list Z) : Action :=
  match op with
  | Delete => MessageDelete (join_uids uids)
  | MarkSeen => MessageFlagsAdd (join_uids uids) Seen
  | MarkUnseen => MessageFlagsRemove (join_uids uids) Seen
  end.

(** The events that a mutation emits once the store has answered. *)
Definition emitted (op : Mutation) (result : bool) (uids : list Z) : list Action :=
  match op, result with
  | Delete, true => EmitDeletedMail <$> uids
  | _, _ => []
  end.

(** ** Reading traces *)

(** The actions performed between two states of one execution. *)
Definition performed (before after : Imap) : list Action :=
  drop (length (trace before)) (trace after).

Definition is_release (a : Action) : bool :=
  match a with Release _ => true | _ => false end.

Definition is_store_call (a : Action) : bool :=
  match a with
  | MessageDelete _ | MessageFlagsAdd _ _ | MessageFlagsRemove _ _ => true
  | _ => false
  end.

Definition is_emit (a : Action) : bool :=
  match a with
  | EmitNewMail _ | EmitLoadedMail _ | EmitDeletedMail _ => true
  | _ => false
  end.

Definition count_releases (acts : list Action) : nat :=
  length (List.filter is_release acts).

(** Identifiers of the ['newMail'] events, in emission order. *)
Fixpoint arrived (acts : list Action) : list Z :=
  match acts with
  | [] => []
  | EmitNewMail mail :: rest => uid mail :: arrived rest
  | _ :: rest => arrived rest
  end.

(** Identifiers of the ['deletedMail'] events, in emission order. *)
Fixpoint removed (acts : list Action) : list Z :=
  match acts with
  | [] => []
  | EmitDeletedMail u :: rest => u :: removed rest
  | _ :: rest => removed rest
  end.

(** Identifiers of the ['deletedMail'] events emitted once a lock has been
    released. *)
Fixpoint removed_after_release (acts : list Action) : list Z :=
  match acts with
  | [] => []
  | Release _ :: rest => removed rest
  | _ :: rest => removed_after_release rest
  end.

(** Identifiers of the ['deletedMail'] events emitted while no lock has been
    released yet. *)
Fixpoint removed_before_release (acts : list Action) : list Z :=
  match acts with
  | [] => []
  | Release _ :: _ => []
  | EmitDeletedMail u :: rest => u :: removed_before_release rest
  | _ :: rest => removed_before_release rest
  end.

(** The watermark stored for a mailbox path. *)
Definition watermark (mailboxToWatch : string) (st : Imap) : option Z :=
  lastUid <$> mailboxes st !! mailboxToWatch.

(** Every key of the registry holds the mailbox of that path, as
    [loadMailboxes] builds it. *)
Definition registry_wf (m : gmap string Mailbox) : Prop :=
  forall key mailbox, m !! key = Some mailbox -> path mailbox = key.

(** The parser answers on every input. *)
Definition parser_total (w : Collaborators) : Prop :=
  forall source, exists parsed, simpleParser w source = Normal parsed.

Fixpoint max_list (d : Z) (xs : list Z) : Z :=
  match xs with
  | [] => d
  | x :: rest => max_list (Z.max d x) rest
  end.

(** The state in which a granted and answered [search] ends. *)
Definition after_search (mailboxPath : string) (range : SearchRange)
    (tl : list (completion bool)) (tf : list (completion (list FetchMessageObject)))
    (st : Imap) : Imap :=
  set_trace (trace st ++ [GetMailboxLock mailboxPath; Fetch range; Release mailboxPath])%list
    (set_world (with_fetch_tape tf (with_lock_tape tl (world st))) st).

(** The test of [getLastMails]: [msg.uid > mailbox.lastUid]. *)
Definition newer_than (w : Z) (u : Z) : bool := u >? w.

(** A method that leaves the registry of mailboxes as it found it, whatever
    its outcome. *)
Definition keeps_registry {A} (c : M A) : Prop :=
  forall st, mailboxes (c st).2 = mailboxes st.

(** A method that keeps the registry well formed, whatever its outcome. *)
Definition keeps_wf {A} (c : M A) : Prop :=
  forall st, registry_wf (mailboxes st) -> registry_wf (mailboxes (c st).2).

(** A method that keeps a property of the registry, whatever its outcome. *)
Definition keeps_inv (I : gmap string Mailbox -> Prop) {A} (c : M A) : Prop :=
  forall st, I (mailboxes st) -> I (mailboxes (c st).2).

(** Every key of the registry holds the mailbox of that path, with a
    watermark of at least 1. *)
Definition registry_ok (m : gmap string Mailbox) : Prop :=
  forall key mailbox, m !! key = Some mailbox -> path mailbox = key /\ 1 <= lastUid mailbox.

(** Polls that follow one another, as the timers fire. *)
Definition polls (paths : list string) : M unit :=
  for_of paths ImapImpl.watchMailbox.

(** ** Scenarios *)

Module Scenario.

Definition default_config : ImapConfig :=
  {| auth_user := "user@example.org"; logging := None; reconnectInterval := None;
     mailboxesToWatch := None; mailboxesWatchInterval := None |}.

(** A parser that takes the whole source as subject and text. *)
Definition echo_parser (source : string) : completion ParsedMail :=
  Normal {| pm_subject := Some source; pm_from := None; pm_text := Some source |}.

(** A client that answers nothing: every call throws. *)
Definition unreachable : Collaborators :=
  {| connect_tape := []; list_tape := []; lock_tape := []; fetch_tape := [];
     delete_tape := []; flags_tape := []; simpleParser := echo_parser |}.

(** The connection attempt is refused, and so is the listing that
    follows. *)
Definition refused : Collaborators :=
  with_list_tape [Throw] (with_connect_tape [Throw] unreachable).

Definition message (u : Z) : FetchMessageObject :=
  {| msg_uid := u; msg_seq := u; msg_headers := "Subject"; msg_bodyPart := None |}.

(** A store that grants [locks] locks, answers the fetches by the given
    lists of identifiers and the store operations by [stores]. *)
Definition store (locks : nat) (fetches : list (list Z))
    (stores : list (completion bool)) : Collaborators :=
  {| connect_tape := [Normal tt]; list_tape := [];
     lock_tape := replicate locks (Normal true);
     fetch_tape := (fun us : list Z => Normal (message <$> us)) <$> fetches;
     delete_tape := stores; flags_tape := stores;
     simpleParser := echo_parser |}.

(** An [Imap] object that tracks ["INBOX"] with the given watermark. *)
Definition tracking (w : Z) (c : Collaborators) : Imap :=
  {| config := default_config;
     mailboxes := {[ "INBOX" := {| path := "INBOX"; lastUid := w |} ]};
     loadedMails := []; world := c; trace := [] |}.

(** ["INBOX"] is tracked with watermark 1; one lock is granted and the
    store answers the one store operation by [r]. *)
Definition inbox_answering (r : completion bool) : Imap :=
  tracking 1 (store 1 [] [r]).

(** ["INBOX"] is tracked with watermark 1; no lock is granted. *)
Definition inbox_locked : Imap :=
  tracking 1 (with_lock_tape [Normal false] (store 0 [] [Normal true])).

(** ["INBOX"] is tracked with watermark 1 and polled twice; the fetches
    yield the given identifiers. *)
Definition inbox_polled (first second : list Z) : Imap :=
  tracking 1 (store 2 [first; second] []).

(** A store that lists [paths], grants every scan its lock and answers the
    scans by the given lists of identifiers. *)
Definition listing (paths : list string) (fetches : list (list Z)) : Collaborators :=
  with_list_tape [Normal paths] (store (length paths) fetches []).

(** A parser that throws on the source ["Broken"], and a message with those
    headers. *)
Definition picky_parser (source : string) : completion ParsedMail :=
  if String.eqb source "Broken" then Throw else echo_parser source.

Definition broken_message (u : Z) : FetchMessageObject :=
  {| msg_uid := u; msg_seq := u; msg_headers := "Broken"; msg_bodyPart := None |}.

(** ["INBOX"] is tracked with watermark 1; the fetch yields message 2, which
    parses, and message 3, which does not. *)
Definition inbox_with_broken : Imap :=
  tracking 1
    {| connect_tape := []; list_tape := []; lock_tape := [Normal true];
       fetch_tape := [Normal [message 2; broken_message 3]];
       delete_tape := []; flags_tape := []; simpleParser := picky_parser |}.

(** ["INBOX"] is tracked with watermark 1; the lock is granted and the fetch
    throws. *)
Definition inbox_fetch_fails : Imap :=
  tracking 1 (with_fetch_tape [Throw] (store 1 [] [])).

Definition hello : string :=
  "Hello there" ++ JsString.LF ++ "--boundary123" ++ JsString.LF ++ "Sent from my phone".

End Scenario.

(** ** Calls from outside, one after another *)

(** A call whose promise is neither awaited nor returned: the method runs,
    and its result or its exception is dropped. *)
Definition not_awaited {A} (c : M A) : M unit :=
  fun st => (Normal tt, (c st).2).

(** The methods of [Mail]: each forwards to the [Imap] object with the
    identifier of the mail, and does not await the answer. *)
Definition Mail_delete (mail : Mail) : M unit :=
  not_awaited (ImapImpl.deleteMails (mailboxPath mail) (FromUids [uid mail])).

Definition Mail_see (mail : Mail) : M unit :=
  not_awaited (ImapImpl.seeMails (mailboxPath mail) (FromUids [uid mail])).

Definition Mail_unsee (mail : Mail) : M unit :=
  not_awaited (ImapImpl.unseeMails (mailboxPath mail) (FromUids [uid mail])).

Inductive MailQuery : Type := AllMails | SeenMails | UnseenMails.

Definition query (q : MailQuery) (mailboxPath : string) : M (list Mail) :=
  match q with
  | AllMails => ImapImpl.getAllMails mailboxPath
  | SeenMails => ImapImpl.getSeenMails mailboxPath
  | UnseenMails => ImapImpl.getUnseenMails mailboxPath
  end.

Definition query_range (q : MailQuery) : SearchRange :=
  match q with
  | AllMails => RangeString "1:*"
  | SeenMails => RangeSeen true
  | UnseenMails => RangeSeen false
  end.

(** What reaches an [Imap] object: a timer fires, or a caller invokes a
    public method. *)
Inductive Call : Type :=
| Fire (task : Task)
| Mutate (op : Mutation) (mailboxPath : string) (selector : UidsList)
| Query (q : MailQuery) (mailboxPath : string).

Definition call (c : Call) : M unit :=
  match c with
  | Fire task => ImapImpl.run_task task
  | Mutate op mailboxPath selector => mutate op mailboxPath selector ;; ret tt
  | Query q mailboxPath => query q mailboxPath ;; ret tt
  end.

(** The state after a sequence of calls, each run to its end, whatever its
    outcome. *)
Definition after_calls (calls : list Call) (st : Imap) : Imap :=
  foldl (fun st c => (call c st).2) st calls.

(** ** Classes of actions *)

Definition is_log (a : Action) : bool :=
  match a with Log _ => true | _ => false end.

Definition is_read (a : Action) : bool :=
  match a with GetMailboxLock _ | Fetch _ | Release _ => true | _ => false end.

Definition is_lock_request (a : Action) : bool :=
  match a with GetMailboxLock _ => true | _ => false end.

Definition is_restart (a : Action) : bool :=
  match a with SetTimeout TaskRun _ => true | _ => false end.

Definition is_flush_timer (a : Action) : bool :=
  match a with SetTimeout TaskEmitLoadedMails _ => true | _ => false end.

Definition is_interval (a : Action) : bool :=
  match a with SetInterval _ _ => true | _ => false end.

(** The actions of a poll. *)
Definition poll_action (a : Action) : bool :=
  match a with
  | GetMailboxLock _ | Fetch _ | Release _ | EmitNewMail _ | Log _ => true
  | _ => false
  end.

(** The actions of [loadMailboxes]. *)
Definition load_action (a : Action) : bool :=
  match a with
  | ClientList | GetMailboxLock _ | Fetch _ | Release _ | Log _ => true
  | _ => false
  end.

(** The actions of [connect]. *)
Definition connect_action (a : Action) : bool :=
  match a with
  | NewImapFlow | ClientConnect | SetTimeout TaskRun _ | Log _ => true
  | _ => false
  end.

(** The actions of [watchMailboxes]. *)
Definition watch_action (a : Action) : bool :=
  match a with
  | SetInterval (TaskWatchMailbox _) _ => true
  | _ => poll_action a
  end.

(** The actions of [run]. *)
Definition run_action (a : Action) : bool :=
  match a with
  | ClientOnError | SetTimeout TaskEmitLoadedMails _ => true
  | _ => (connect_action a || load_action a || watch_action a)%bool
  end.

(** The actions of a mutation. *)
Definition mutation_action (a : Action) : bool :=
  match a with
  | GetMailboxLock _ | Release _ | MessageDelete _ | MessageFlagsAdd _ _
  | MessageFlagsRemove _ _ | EmitDeletedMail _ => true
  | _ => false
  end.

(** The actions of [emitLoadedMails]. *)
Definition flush_action (a : Action) : bool :=
  match a with EmitLoadedMail _ => true | _ => false end.

(** Any action. *)
Definition any_action (a : Action) : bool := true.

(** Whether [text] holds a line break (LF). *)
Definition has_line_break (text : string) : bool :=
  existsb (Ascii.eqb "010"%char) (list_ascii_of_string text).

(** An action of class [P]; if it writes a log, logging is switched on. *)
Definition permitted (cfg : ImapConfig) (P : Action -> bool) (a : Action) : Prop :=
  P a = true /\ (is_log a = true -> logging cfg = Some true).

(** A method that leaves the configuration alone and only appends actions
    of class [P] to the trace, whatever its outcome. *)
Definition adds (P : Action -> bool) {A} (c : M A) : Prop :=
  forall st,
    config (c st).2 = config st /\
    exists acts,
      trace (c st).2 = (trace st ++ acts)%list /\
      Forall (permitted (config st) P) acts.

(** A method that leaves the buffer of loaded mails as it found it. *)
Definition keeps_loaded {A} (c : M A) : Prop :=
  forall st, loadedMails (c st).2 = loadedMails st.

Definition count_actions (P : Action -> bool) (acts : list Action) : nat :=
  length (List.filter P acts).

(** The registry that [loadMailboxes] builds from a listing and the messages
    found in each mailbox. *)
Definition loaded_registry (m : gmap string Mailbox)
    (found : list (string * list FetchMessageObject)) : gmap string Mailbox :=
  foldl (fun m pf =>
           <[pf.1 := {| path := pf.1; lastUid := max_list 1 (msg_uid <$> pf.2) |}]> m)
        m found.

(** ** Basic facts *)

Local Open Scope list_scope.

Example split_lines :
  JsString.split JsString.LF ("a" ++ JsString.LF ++ "b" ++ JsString.LF)%string
  = ["a"; "b"; ""].
Proof. reflexivity. Qed.

Example split_no_separator : JsString.split "," "" = [""].
Proof. reflexivity. Qed.

Example join_two_uids : join_uids [10; 11] = "10,11".
Proof. reflexivity. Qed.

Example parse_ab_lf : MailImpl.parseContent (Some ("ab" ++ JsString.LF)%string) = "a".
Proof. reflexivity. Qed.

Example resolve_uids : uidsAndMailsToUids (FromUids [3; 1; 2; 1]) = [3; 1; 2].
Proof. reflexivity. Qed.

Ltac open_state st :=
  let cfg := fresh "cfg" in
  let m := fresh "m" in
  let loaded := fresh "loaded" in
  let w := fresh "w" in
  let tr := fresh "tr" in
  destruct st as [cfg m loaded w tr]; destruct w; simpl in *; subst.

Ltac run_monad :=
  unfold bind, ret, get, answer, try_catch, raise; simpl.

Ltac trace_eq :=
  unfold set_trace, set_world, set_mailboxes, set_loadedMails; simpl;
  rewrite <- ?app_assoc; simpl; rewrite <- ?app_assoc; try done.

Lemma performed_app (st st' : Imap) (acts : list Action) :
  trace st' = trace st ++ acts -> performed st st' = acts.
Proof.
  unfold performed. intros ->. apply drop_app_length.
Qed.

Lemma set_trace_set_trace (t t' : list Action) (st : Imap) :
  set_trace t' (set_trace t st) = set_trace t' st.
Proof. reflexivity. Qed.

Lemma set_trace_same (st : Imap) : set_trace (trace st) st = st.
Proof. by destruct st. Qed.

(** A loop whose body only performs an action performs them in order. *)
Lemma for_of_act {A} (f : A -> Action) (xs : list A) (st : Imap) :
  for_of xs (fun x => act (f x)) st
  = (Normal tt, set_trace (trace st ++ (f <$> xs)) st).
Proof.
  revert st. induction xs as [|x xs IH]; intros st; simpl.
  - unfold ret. by rewrite app_nil_r, set_trace_same.
  - unfold bind at 1. unfold act at 1. rewrite IH. simpl.
    by rewrite set_trace_set_trace, <- app_assoc.
Qed.

Lemma count_releases_app (xs ys : list Action) :
  count_releases (xs ++ ys) = (count_releases xs + count_releases ys)%nat.
Proof.
  unfold count_releases. by rewrite List.filter_app, length_app.
Qed.

Lemma count_releases_emitted (op : Mutation) (result : bool) (uids : list Z) :
  count_releases (emitted op result uids) = 0%nat.
Proof.
  destruct op, result; try reflexivity.
  unfold emitted, count_releases. induction uids as [|u uids IH]; [reflexivity|exact IH].
Qed.

Lemma removed_fmap (uids : list Z) : removed (EmitDeletedMail <$> uids) = uids.
Proof. induction uids as [|u uids IH]; cbn in *; congruence. Qed.

Lemma removed_before_release_fmap (uids : list Z) (p : string) :
  removed_before_release ((EmitDeletedMail <$> uids) ++ [Release p]) = uids.
Proof. induction uids as [|u uids IH]; cbn in *; congruence. Qed.

Lemma removed_after_release_fmap (uids : list Z) (p : string) :
  removed_after_release ((EmitDeletedMail <$> uids) ++ [Release p]) = [].
Proof. induction uids as [|u uids IH]; cbn in *; congruence. Qed.

(** ** Mutations *)

Section Mutations.
Variables (mailboxPath : string) (selector : UidsList).
Let uids := uidsAndMailsToUids selector.

(** With the lock granted, [deleteMails] asks the store, emits on success,
    releases, and returns the answer of the store; if the store throws,
    nothing follows the store call. *)
Lemma deleteMails_granted (st : Imap) tl r ts :
  lock_tape (world st) = Normal true :: tl ->
  delete_tape (world st) = r :: ts ->
  exists st',
    ImapImpl.deleteMails mailboxPath selector st = (r, st') /\
    trace st' = trace st ++
      GetMailboxLock mailboxPath :: MessageDelete (join_uids uids) ::
      match r with
      | Normal result => emitted Delete result uids ++ [Release mailboxPath]
      | Throw => []
      end.
Proof.
  intros Hlock Hstore. open_state st.
  unfold ImapImpl.deleteMails, getMailboxLock, messageDelete, release.
  fold uids. run_monad.
  destruct r as [[|]|]; simpl.
  - rewrite (for_of_act EmitDeletedMail). simpl.
    eexists; split; [reflexivity|]. trace_eq.
  - eexists; split; [reflexivity|]. trace_eq.
  - eexists; split; [reflexivity|]. trace_eq.
Qed.

Lemma seeMails_granted (st : Imap) tl r ts :
  lock_tape (world st) = Normal true :: tl ->
  flags_tape (world st) = r :: ts ->
  exists st',
    ImapImpl.seeMails mailboxPath selector st = (r, st') /\
    trace st' = trace st ++
      GetMailboxLock mailboxPath :: MessageFlagsAdd (join_uids uids) Seen ::
      match r with
      | Normal _ => [Release mailboxPath]
      | Throw => []
      end.
Proof.
  intros Hlock Hstore. open_state st.
  unfold ImapImpl.seeMails, getMailboxLock, messageFlagsAdd, release.
  fold uids. run_monad.
  destruct r as [result|]; simpl;
    (eexists; split; [reflexivity|]; trace_eq).
Qed.

Lemma unseeMails_granted (st : Imap) tl r ts :
  lock_tape (world st) = Normal true :: tl ->
  flags_tape (world st) = r :: ts ->
  uids <> [] ->
  exists st',
    ImapImpl.unseeMails mailboxPath selector st = (r, st') /\
    trace st' = trace st ++
      GetMailboxLock mailboxPath :: MessageFlagsRemove (join_uids uids) Seen ::
      match r with
      | Normal _ => [Release mailboxPath]
      | Throw => []
      end.
Proof.
  intros Hlock Hstore Hne. open_state st.
  unfold ImapImpl.unseeMails, getMailboxLock, messageFlagsRemove, release.
  fold uids. destruct uids as [|u us] eqn:Huids; [done|]. run_monad.
  destruct r as [result|]; simpl;
    (eexists; split; [reflexivity|]; trace_eq).
Qed.

(** On an empty identifier list [deleteMails] and [seeMails] still ask the
    store, with the empty string as identifier list. *)
Lemma deleteMails_empty_asks_store (st : Imap) tl r ts :
  uids = [] ->
  lock_tape (world st) = Normal true :: tl ->
  delete_tape (world st) = r :: ts ->
  exists st',
    ImapImpl.deleteMails mailboxPath selector st = (r, st') /\
    MessageDelete "" ∈ performed st st'.
Proof.
  intros Hempty Hlock Hstore.
  destruct (deleteMails_granted st tl r ts Hlock Hstore) as (st' & Hrun & Htrace).
  exists st'. split; [exact Hrun|].
  rewrite (performed_app _ _ _ Htrace), Hempty. set_solver.
Qed.

Lemma seeMails_empty_asks_store (st : Imap) tl r ts :
  uids = [] ->
  lock_tape (world st) = Normal true :: tl ->
  flags_tape (world st) = r :: ts ->
  exists st',
    ImapImpl.seeMails mailboxPath selector st = (r, st') /\
    MessageFlagsAdd "" Seen ∈ performed st st'.
Proof.
  intros Hempty Hlock Hstore.
  destruct (seeMails_granted st tl r ts Hlock Hstore) as (st' & Hrun & Htrace).
  exists st'. split; [exact Hrun|].
  rewrite (performed_app _ _ _ Htrace), Hempty. set_solver.
Qed.

(** On an empty identifier list [unseeMails] asks for the lock, and then
    returns [false] with no further action, whatever the answer. *)
Lemma unseeMails_empty (st : Imap) granted tl :
  uids = [] ->
  lock_tape (world st) = Normal granted :: tl ->
  exists st',
    ImapImpl.unseeMails mailboxPath selector st = (Normal false, st') /\
    performed st st' = [GetMailboxLock mailboxPath].
Proof.
  intros Hempty Hlock. open_state st.
  unfold ImapImpl.unseeMails, getMailboxLock. fold uids. rewrite Hempty.
  run_monad. unfold performed.
  destruct granted; simpl; (eexists; split; [reflexivity|]; simpl; apply drop_app_length).
Qed.

End Mutations.

(** ** Claims about the mutation operations *)

(** C3 (amended): for each of [deleteMails], [seeMails] and [unseeMails], when
    the lock is acquired and the store operation is issued (for [unseeMails]:
    the identifier list is not empty), the lock is released exactly once, after
    the store call and any ['deletedMail'] event, whenever the store operation
    returns, with success or not; when the store operation throws, the
    exception reaches the caller and the lock is not released. *)
Theorem mutation_releases_lock_unless_store_throws
    (op : Mutation) (mailboxPath : string) (selector : UidsList) (st : Imap)
    (tl : list (completion bool)) (r : completion bool) (ts : list (completion bool)) :
  lock_tape (world st) = Normal true :: tl ->
  store_tape op (world st) = r :: ts ->
  (op = MarkUnseen -> uidsAndMailsToUids selector <> []) ->
  exists st',
    mutate op mailboxPath selector st = (r, st') /\
    performed st st' =
      GetMailboxLock mailboxPath :: store_call op (uidsAndMailsToUids selector) ::
      match r with
      | Normal result =>
          emitted op result (uidsAndMailsToUids selector) ++ [Release mailboxPath]
      | Throw => []
      end /\
    count_releases (performed st st') =
      match r with Normal _ => 1%nat | Throw => 0%nat end.
Proof.
  intros Hlock Hstore Hne.
  assert (exists st',
    mutate op mailboxPath selector st = (r, st') /\
    trace st' = trace st ++
      GetMailboxLock mailboxPath :: store_call op (uidsAndMailsToUids selector) ::
      match r with
      | Normal result =>
          emitted op result (uidsAndMailsToUids selector) ++ [Release mailboxPath]
      | Throw => []
      end) as (st' & Hrun & Htrace).
  { destruct op; simpl in *.
    - apply (deleteMails_granted _ _ _ tl r ts Hlock Hstore).
    - destruct (seeMails_granted mailboxPath selector st tl r ts Hlock Hstore)
        as (st' & Hrun & Htrace).
      exists st'. split; [exact Hrun|]. rewrite Htrace. by destruct r.
    - destruct (unseeMails_granted mailboxPath selector st tl r ts Hlock Hstore)
        as (st' & Hrun & Htrace); [by apply Hne|].
      exists st'. split; [exact Hrun|]. rewrite Htrace. by destruct r. }
  exists st'. split; [exact Hrun|].
  rewrite (performed_app _ _ _ Htrace). split; [reflexivity|].
  change (?a :: ?b :: ?l) with ([a; b] ++ l).
  rewrite count_releases_app.
  destruct r as [result|]; [|by destruct op].
  rewrite count_releases_app, count_releases_emitted. by destruct op.
Qed.

Lemma mutation_releases_lock_witness :
  exists st',
    mutate Delete "INBOX" (FromUids [10; 11]) (Scenario.inbox_answering (Normal false))
    = (Normal false, st') /\
    performed (Scenario.inbox_answering (Normal false)) st'
    = [GetMailboxLock "INBOX"; MessageDelete "10,11"; Release "INBOX"] /\
    count_releases (performed (Scenario.inbox_answering (Normal false)) st') = 1%nat.
Proof.
  apply (mutation_releases_lock_unless_store_throws Delete "INBOX" (FromUids [10; 11])
           (Scenario.inbox_answering (Normal false)) [] (Normal false) []).
  - reflexivity.
  - reflexivity.
  - intros H. discriminate H.
Defined.

(** C3 (as stated) fails: in [deleteMails], with the lock acquired, a store
    operation that throws leaves the lock unreleased. *)
Lemma store_failure_leaves_lock_unreleased :
  lock_tape (world (Scenario.inbox_answering Throw)) = [Normal true] /\
  (mutate Delete "INBOX" (FromUids [10; 11]) (Scenario.inbox_answering Throw)).1 = Throw /\
  performed (Scenario.inbox_answering Throw)
    (mutate Delete "INBOX" (FromUids [10; 11]) (Scenario.inbox_answering Throw)).2
  = [GetMailboxLock "INBOX"; MessageDelete "10,11"] /\
  count_releases
    (performed (Scenario.inbox_answering Throw)
       (mutate Delete "INBOX" (FromUids [10; 11]) (Scenario.inbox_answering Throw)).2)
  <> 1%nat.
Proof.
  repeat split; try reflexivity. vm_compute. discriminate.
Qed.

(** C4 (amended): for every call of [deleteMails] in which the lock is acquired
    and the store reports success, a ['deletedMail'] event is emitted for each
    normalized identifier, in input order, before the lock is released, and the
    call returns [true]. *)
Theorem deleteMails_success_emits_then_releases
    (mailboxPath : string) (toDelete : UidsList) (st : Imap)
    (tl ts : list (completion bool)) :
  lock_tape (world st) = Normal true :: tl ->
  delete_tape (world st) = Normal true :: ts ->
  exists st',
    ImapImpl.deleteMails mailboxPath toDelete st = (Normal true, st') /\
    performed st st' =
      [GetMailboxLock mailboxPath; MessageDelete (join_uids (uidsAndMailsToUids toDelete))]
      ++ (EmitDeletedMail <$> uidsAndMailsToUids toDelete) ++ [Release mailboxPath] /\
    removed_before_release (performed st st') = uidsAndMailsToUids toDelete /\
    removed_after_release (performed st st') = [].
Proof.
  intros Hlock Hstore.
  destruct (deleteMails_granted mailboxPath toDelete st tl (Normal true) ts Hlock Hstore)
    as (st' & Hrun & Htrace).
  exists st'. split; [exact Hrun|].
  rewrite (performed_app _ _ _ Htrace). simpl.
  by rewrite removed_before_release_fmap, removed_after_release_fmap.
Qed.

Lemma deleteMails_success_witness :
  exists st',
    ImapImpl.deleteMails "INBOX" (FromUids [10; 11]) (Scenario.inbox_answering (Normal true))
    = (Normal true, st') /\
    performed (Scenario.inbox_answering (Normal true)) st'
    = [GetMailboxLock "INBOX"; MessageDelete "10,11";
       EmitDeletedMail 10; EmitDeletedMail 11; Release "INBOX"] /\
    removed_before_release (performed (Scenario.inbox_answering (Normal true)) st') = [10; 11] /\
    removed_after_release (performed (Scenario.inbox_answering (Normal true)) st') = [].
Proof.
  apply (deleteMails_success_emits_then_releases "INBOX" (FromUids [10; 11])
           (Scenario.inbox_answering (Normal true)) [] []).
  - reflexivity.
  - reflexivity.
Defined.

(** C4 (as stated) fails: [deleteMails("INBOX", {uids: [10, 11]})] against a
    store that reports success emits both events while the lock is still held;
    no event follows the release. *)
Lemma deleteMails_emits_while_locked :
  (ImapImpl.deleteMails "INBOX" (FromUids [10; 11])
     (Scenario.inbox_answering (Normal true))).1 = Normal true /\
  performed (Scenario.inbox_answering (Normal true))
    (ImapImpl.deleteMails "INBOX" (FromUids [10; 11])
       (Scenario.inbox_answering (Normal true))).2
  = [GetMailboxLock "INBOX"; MessageDelete "10,11";
     EmitDeletedMail 10; EmitDeletedMail 11; Release "INBOX"] /\
  removed_after_release
    (performed (Scenario.inbox_answering (Normal true))
       (ImapImpl.deleteMails "INBOX" (FromUids [10; 11])
          (Scenario.inbox_answering (Normal true))).2)
  <> [10; 11].
Proof.
  repeat split; try reflexivity. vm_compute. discriminate.
Qed.

(** C5: [unseeMails("INBOX", {uids: []})] does contact the store: it asks
    for the mailbox lock, is granted it, and returns [false] without a flag
    call and without releasing the lock. *)
Theorem unseeMails_empty_acquires_lock :
  (ImapImpl.unseeMails "INBOX" (FromUids []) (Scenario.inbox_answering (Normal true))).1
  = Normal false /\
  performed (Scenario.inbox_answering (Normal true))
    (ImapImpl.unseeMails "INBOX" (FromUids []) (Scenario.inbox_answering (Normal true))).2
  = [GetMailboxLock "INBOX"] /\
  lock_tape (world (Scenario.inbox_answering (Normal true))) = [Normal true] /\
  lock_tape (world
    (ImapImpl.unseeMails "INBOX" (FromUids []) (Scenario.inbox_answering (Normal true))).2)
  = [].
Proof. repeat split; reflexivity. Qed.

(** C9: when the mailbox lock cannot be acquired, [seeMails] returns [false];
    the request for the lock is its only action: no flag call is issued and no
    event is emitted. *)
Theorem seeMails_lock_unavailable
    (mailboxPath : string) (toSee : UidsList) (st : Imap) (tl : list (completion bool)) :
  lock_tape (world st) = Normal false :: tl ->
  exists st',
    ImapImpl.seeMails mailboxPath toSee st = (Normal false, st') /\
    performed st st' = [GetMailboxLock mailboxPath] /\
    List.filter is_store_call (performed st st') = [] /\
    List.filter is_emit (performed st st') = [] /\
    flags_tape (world st') = flags_tape (world st) /\
    mailboxes st' = mailboxes st /\ loadedMails st' = loadedMails st.
Proof.
  intros Hlock. open_state st.
  unfold ImapImpl.seeMails, getMailboxLock. run_monad.
  eexists; split; [reflexivity|].
  unfold performed. simpl. rewrite drop_app_length. by repeat split.
Qed.

Lemma seeMails_lock_unavailable_witness :
  exists st',
    ImapImpl.seeMails "INBOX" (FromUids [10; 11]) Scenario.inbox_locked = (Normal false, st') /\
    performed Scenario.inbox_locked st' = [GetMailboxLock "INBOX"] /\
    List.filter is_store_call (performed Scenario.inbox_locked st') = [] /\
    List.filter is_emit (performed Scenario.inbox_locked st') = [] /\
    flags_tape (world st') = flags_tape (world Scenario.inbox_locked) /\
    mailboxes st' = mailboxes Scenario.inbox_locked /\
    loadedMails st' = loadedMails Scenario.inbox_locked.
Proof.
  apply (seeMails_lock_unavailable "INBOX" (FromUids [10; 11]) Scenario.inbox_locked []).
  reflexivity.
Defined.

(** ** Claims about message construction *)

(** C8: the extraction heuristic always yields a string.  On the body
    "Hello there / --boundary123 / Sent from my phone" it yields
    "Hello there"; on an undefined body, on an empty body, and whenever the
    [try] block throws, it yields the empty string; a message whose parsed
    text is absent or empty is built with empty content. *)
Theorem parseContent_never_fails :
  MailImpl.parseContent (Some Scenario.hello) = "Hello there" /\
  MailImpl.parseContent None = "" /\
  MailImpl.parseContent (Some "") = "" /\
  (forall mailboxPath msg parsed,
     MailImpl.or_empty (pm_text parsed) = "" ->
     content (MailImpl.new_Mail mailboxPath msg parsed) = "") /\
  (forall text, MailImpl.parseContent_try text = Throw -> MailImpl.parseContent text = "").
Proof.
  repeat split; try reflexivity.
  - intros mailboxPath msg parsed Hempty. simpl. by rewrite Hempty.
  - intros text Hthrow. unfold MailImpl.parseContent. by rewrite Hthrow.
Qed.

Lemma parseContent_never_fails_witness :
  MailImpl.parseContent_try (Some "") = Throw /\
  MailImpl.parseContent (Some "") = "" /\
  content (MailImpl.new_Mail "INBOX" (Scenario.message 7)
             {| pm_subject := Some "Hi"; pm_from := None; pm_text := None |}) = "".
Proof.
  destruct parseContent_never_fails as (_ & _ & _ & Hmail & Hthrow).
  split; [reflexivity|]. split.
  - apply (Hthrow (Some "")). reflexivity.
  - apply (Hmail "INBOX" (Scenario.message 7)). reflexivity.
Defined.

(** ** Claims about startup and recovery *)

(** [connect] never throws: a failure inside its [try] block ends in
    [restart]. *)
Lemma connect_returns (st : Imap) : exists st', ImapImpl.connect st = (Normal tt, st').
Proof.
  open_state st.
  unfold ImapImpl.connect, ImapImpl.restart, log, new_ImapFlow, client_connect, setTimeout.
  run_monad.
  destruct cfg as [user [[|]|] ri mw mi]; simpl;
    destruct connect_tape0 as [|[[]|] tl]; simpl; eauto.
Qed.

(** After a refused connection attempt [run] does not stop: it goes on with
    [watchErrors], [loadMailboxes], [watchMailboxes] and the timer of
    [emitLoadedMails], from the state in which the restart was scheduled. *)
Lemma run_continues_after_refused_connect (st : Imap) tl :
  connect_tape (world st) = Throw :: tl ->
  exists st1,
    ImapImpl.connect st = (Normal tt, st1) /\
    last (trace st1)
    = Some (SetTimeout TaskRun
              (inject_Z (or_default (reconnectInterval (config st))
                                    DEFAULT_RECONNECT_INTERVAL))) /\
    ImapImpl.run st =
      bind ImapImpl.watchErrors (fun _ =>
      bind ImapImpl.loadMailboxes (fun _ =>
      bind ImapImpl.watchMailboxes (fun _ =>
      setTimeout TaskEmitLoadedMails (inject_Z 1000)))) st1.
Proof.
  intros Hconnect.
  assert (exists st1, ImapImpl.connect st = (Normal tt, st1) /\
            last (trace st1)
            = Some (SetTimeout TaskRun
                      (inject_Z (or_default (reconnectInterval (config st))
                                            DEFAULT_RECONNECT_INTERVAL))))
    as (st1 & Hc & Hlast).
  { open_state st.
    unfold ImapImpl.connect, ImapImpl.restart, log, new_ImapFlow, client_connect, setTimeout.
    run_monad.
    destruct cfg as [user [[|]|] ri mw mi]; simpl;
      (eexists; split; [reflexivity|]; simpl; apply last_snoc). }
  exists st1. repeat split; [exact Hc|exact Hlast|].
  unfold ImapImpl.run. unfold bind at 1. by rewrite Hc.
Qed.

(** C1: with a client that refuses the connection and then the listing,
    [run] schedules the restart, registers the error handler and asks for the
    list of mailboxes on the failed connection; the failure of that call is not
    caught, and [run] throws to its caller. *)
Theorem run_throws_after_refused_connect :
  (ImapImpl.run (new_Imap Scenario.default_config Scenario.refused)).1 = Throw /\
  trace (ImapImpl.run (new_Imap Scenario.default_config Scenario.refused)).2
  = [NewImapFlow; ClientConnect; SetTimeout TaskRun (inject_Z 60000);
     ClientOnError; ClientList].
Proof. split; reflexivity. Qed.

(** The delay used by [restart] is the configured interval. *)
Lemma restart_delay (st : Imap) :
  exists st',
    ImapImpl.restart st = (Normal tt, st') /\
    last (trace st')
    = Some (SetTimeout TaskRun
              (inject_Z (or_default (reconnectInterval (config st))
                                    DEFAULT_RECONNECT_INTERVAL))).
Proof.
  open_state st. unfold ImapImpl.restart, log, setTimeout. run_monad.
  destruct cfg as [user [[|]|] ri mw mi]; simpl;
    (eexists; split; [reflexivity|]; simpl; apply last_snoc).
Qed.

(** The delay used by the error handler is the configured interval divided
    by 1000. *)
Lemma on_error_callback_delay (st : Imap) :
  exists st',
    ImapImpl.on_error_callback st = (Normal tt, st') /\
    last (trace st')
    = Some (SetTimeout TaskRun
              (inject_Z (or_default (reconnectInterval (config st))
                                    DEFAULT_RECONNECT_INTERVAL) / inject_Z 1000)%Q).
Proof.
  open_state st. unfold ImapImpl.on_error_callback, log, setTimeout. run_monad.
  destruct cfg as [user [[|]|] ri mw mi]; simpl;
    (eexists; split; [reflexivity|]; simpl; apply last_snoc).
Qed.

Lemma or_default_nonzero (x : option Z) (d : Z) : d <> 0 -> or_default x d <> 0.
Proof. intros Hd. destruct x as [[| |]|]; simpl; (done || lia). Qed.

(** The two delays never agree. *)
Lemma error_delay_differs (cfg : ImapConfig) :
  let interval := or_default (reconnectInterval cfg) DEFAULT_RECONNECT_INTERVAL in
  ~ (inject_Z interval / inject_Z 1000 == inject_Z interval)%Q.
Proof.
  intros interval Heq.
  assert (interval <> 0) as Hnz by (apply or_default_nonzero; done).
  unfold Qeq, Qdiv, Qmult, Qinv, inject_Z in Heq. simpl in Heq. lia.
Qed.

(** C2: with the default configuration the error handler schedules the
    restart after 60 ms (60 000 / 1000), whereas [restart], used for an initial
    connection failure, schedules it after 60 000 ms. *)
Theorem error_handler_restarts_after_60ms :
  exists handler_delay restart_delay,
    trace (ImapImpl.on_error_callback
             (new_Imap Scenario.default_config Scenario.unreachable)).2
    = [SetTimeout TaskRun handler_delay] /\
    trace (ImapImpl.restart
             (new_Imap Scenario.default_config Scenario.unreachable)).2
    = [SetTimeout TaskRun restart_delay] /\
    (handler_delay == 60)%Q /\
    (restart_delay == 60000)%Q /\
    ~ (handler_delay == restart_delay)%Q.
Proof.
  eexists; eexists. split; [reflexivity|]. split; [reflexivity|].
  repeat split; try reflexivity. intros H. discriminate H.
Qed.

(** ** Claims about polling *)

(** C10: a poll of a path that is absent from the registry returns at once
    and leaves the whole state as it was: no fetch, no event, no change of the
    registry, of the watermarks or of the buffer of loaded mails. *)
Theorem watchMailbox_unknown_path (mailboxToWatch : string) (st : Imap) :
  mailboxes st !! mailboxToWatch = None ->
  ImapImpl.watchMailbox mailboxToWatch st = (Normal tt, st).
Proof.
  intros Habsent. unfold ImapImpl.watchMailbox. run_monad. by rewrite Habsent.
Qed.

Lemma watchMailbox_unknown_path_witness :
  ImapImpl.watchMailbox "Archive" (Scenario.inbox_polled [1; 2] [1; 2])
  = (Normal tt, Scenario.inbox_polled [1; 2] [1; 2]).
Proof.
  apply (watchMailbox_unknown_path "Archive" (Scenario.inbox_polled [1; 2] [1; 2])).
  reflexivity.
Defined.

(** *** One poll against a store that answers *)

Lemma search_granted (mailboxPath : string) (range : SearchRange) (st : Imap) tl msgs tf :
  lock_tape (world st) = Normal true :: tl ->
  fetch_tape (world st) = Normal msgs :: tf ->
  ImapImpl.search mailboxPath range st
  = (Normal msgs, after_search mailboxPath range tl tf st).
Proof.
  intros Hlock Hfetch. open_state st.
  unfold ImapImpl.search, getMailboxLock, client_fetch, release, after_search.
  run_monad. f_equal. trace_eq.
Qed.

Lemma getNewMail_total (mailboxPath : string) (msg : FetchMessageObject) (st : Imap) :
  parser_total (world st) ->
  exists mail,
    ImapImpl.getNewMail mailboxPath msg st = (Normal mail, st) /\ uid mail = msg_uid msg.
Proof.
  intros Htotal. unfold ImapImpl.getNewMail, mailparser_simpleParser. run_monad.
  destruct (Htotal (msg_headers msg)) as [headers ->].
  destruct (msg_bodyPart msg) as [bodyPart|].
  - destruct (Htotal bodyPart) as [body ->]. eexists; split; reflexivity.
  - eexists; split; reflexivity.
Qed.

Lemma getLastMails_loop_total (mailbox : Mailbox) (msgs : list FetchMessageObject)
    (mails : list Mail) (st : Imap) :
  parser_total (world st) ->
  exists found,
    ImapImpl.getLastMails_loop mailbox msgs mails st = (Normal (mails ++ found), st) /\
    uid <$> found = List.filter (newer_than (lastUid mailbox)) (msg_uid <$> msgs).
Proof.
  intros Htotal. revert mails.
  induction msgs as [|msg msgs IH]; intros mails.
  - exists []. simpl. by rewrite app_nil_r.
  - rewrite fmap_cons. cbn [ImapImpl.getLastMails_loop List.filter].
    unfold newer_than at 1.
    destruct (msg_uid msg >? lastUid mailbox) eqn:Hnew.
    + destruct (getNewMail_total (path mailbox) msg st Htotal) as (mail & Hmail & Huid).
      unfold bind. rewrite Hmail.
      destruct (IH (mails ++ [mail])) as (found & Hloop & Hfound).
      exists (mail :: found). rewrite Hloop, <- app_assoc. split; [reflexivity|].
      rewrite fmap_cons, Huid, Hfound. reflexivity.
    + apply IH.
Qed.

Lemma arrived_emit (mails : list Mail) : arrived (EmitNewMail <$> mails) = uid <$> mails.
Proof. induction mails as [|mail mails IH]; cbn in *; congruence. Qed.

Lemma arrived_app (xs ys : list Action) : arrived (xs ++ ys) = arrived xs ++ arrived ys.
Proof.
  induction xs as [|a xs IH]; [reflexivity|].
  destruct a; simpl; rewrite ?IH; reflexivity.
Qed.

(** A poll of a tracked mailbox, with the lock granted, the fetch answered
    and every message parsed: the identifiers above the watermark arrive, in
    fetch order, and the watermark becomes the identifier of the last of
    them. *)
Lemma watchMailbox_polled (mailboxToWatch : string) (st : Imap) (w : Z) tl msgs tf :
  mailboxes st !! mailboxToWatch = Some {| path := mailboxToWatch; lastUid := w |} ->
  lock_tape (world st) = Normal true :: tl ->
  fetch_tape (world st) = Normal msgs :: tf ->
  parser_total (world st) ->
  exists st',
    ImapImpl.watchMailbox mailboxToWatch st = (Normal tt, st') /\
    arrived (performed st st') = List.filter (newer_than w) (msg_uid <$> msgs) /\
    mailboxes st' !! mailboxToWatch
    = Some {| path := mailboxToWatch;
              lastUid := default w (last (List.filter (newer_than w) (msg_uid <$> msgs))) |} /\
    lock_tape (world st') = tl /\
    fetch_tape (world st') = tf /\
    simpleParser (world st') = simpleParser (world st).
Proof.
  intros Hmailbox Hlock Hfetch Htotal.
  set (mailbox := {| path := mailboxToWatch; lastUid := w |}) in *.
  set (st1 := after_search mailboxToWatch (RangeString "1:*") tl tf st).
  assert (parser_total (world st1)) as Htotal1 by (by destruct st as [? ? ? []]).
  destruct (getLastMails_loop_total mailbox msgs [] st1 Htotal1) as (mails & Hloop & Hmails).
  simpl in Hloop. change (lastUid mailbox) with w in Hmails.
  assert (ImapImpl.getLastMails mailbox st = (Normal mails, st1)) as Hget.
  { unfold ImapImpl.getLastMails, bind.
    by rewrite (search_granted _ _ _ tl msgs tf Hlock Hfetch). }
  unfold ImapImpl.watchMailbox, try_catch.
  unfold bind at 1. unfold get at 1. rewrite Hmailbox.
  unfold bind at 1. rewrite Hget.
  rewrite <- Hmails, fmap_last.
  destruct (last mails) as [newest|] eqn:Hlast; simpl.
  - unfold bind, ImapImpl.mailboxes_set. simpl.
    rewrite (for_of_act EmitNewMail). simpl.
    eexists; split; [reflexivity|].
    unfold performed; simpl. rewrite lookup_insert_eq. simpl.
    rewrite <- app_assoc, drop_app_length. simpl.
    rewrite arrived_emit. destruct st as [? ? ? []]; simpl in *. by repeat split.
  - apply last_None in Hlast. subst mails. unfold ret.
    eexists; split; [reflexivity|].
    unfold performed; simpl. rewrite Hmailbox, drop_app_length. simpl.
    destruct st as [? ? ? []]; simpl in *. by repeat split.
Qed.

(** C7: two polls in a row on a mailbox whose watermark is 1, the first
    fetch yielding the identifiers 1, 2, 3 and the second 1, 2, 3, 4, 5 (lock
    granted, messages parsed): the first poll emits ['newMail'] for 2 then 3
    and sets the watermark to 3; the second emits ['newMail'] for 4 then 5
    only and sets the watermark to 5. *)
Theorem two_polls_deliver_once_in_order
    (mailboxToWatch : string) (st : Imap) (tl : list (completion bool))
    (first second : list FetchMessageObject)
    (tf : list (completion (list FetchMessageObject))) :
  mailboxes st !! mailboxToWatch = Some {| path := mailboxToWatch; lastUid := 1 |} ->
  lock_tape (world st) = Normal true :: Normal true :: tl ->
  fetch_tape (world st) = Normal first :: Normal second :: tf ->
  parser_total (world st) ->
  msg_uid <$> first = [1; 2; 3] ->
  msg_uid <$> second = [1; 2; 3; 4; 5] ->
  exists st1 st2,
    ImapImpl.watchMailbox mailboxToWatch st = (Normal tt, st1) /\
    arrived (performed st st1) = [2; 3] /\
    watermark mailboxToWatch st1 = Some 3 /\
    ImapImpl.watchMailbox mailboxToWatch st1 = (Normal tt, st2) /\
    arrived (performed st1 st2) = [4; 5] /\
    watermark mailboxToWatch st2 = Some 5.
Proof.
  intros Hmailbox Hlock Hfetch Htotal Hfirst Hsecond.
  destruct (watchMailbox_polled mailboxToWatch st 1 _ first _ Hmailbox Hlock Hfetch Htotal)
    as (st1 & Hrun1 & Harrived1 & Hmailbox1 & Hlock1 & Hfetch1 & Hparser1).
  rewrite Hfirst in Harrived1, Hmailbox1. simpl in Harrived1, Hmailbox1.
  assert (parser_total (world st1)) as Htotal1.
  { intros source. rewrite Hparser1. apply Htotal. }
  destruct (watchMailbox_polled mailboxToWatch st1 3 _ second _ Hmailbox1 Hlock1 Hfetch1 Htotal1)
    as (st2 & Hrun2 & Harrived2 & Hmailbox2 & _).
  rewrite Hsecond in Harrived2, Hmailbox2. simpl in Harrived2, Hmailbox2.
  exists st1, st2. unfold watermark. rewrite Hmailbox1, Hmailbox2.
  by repeat split.
Qed.

Lemma two_polls_witness :
  exists st1 st2,
    ImapImpl.watchMailbox "INBOX" (Scenario.inbox_polled [1; 2; 3] [1; 2; 3; 4; 5])
    = (Normal tt, st1) /\
    arrived (performed (Scenario.inbox_polled [1; 2; 3] [1; 2; 3; 4; 5]) st1) = [2; 3] /\
    watermark "INBOX" st1 = Some 3 /\
    ImapImpl.watchMailbox "INBOX" st1 = (Normal tt, st2) /\
    arrived (performed st1 st2) = [4; 5] /\
    watermark "INBOX" st2 = Some 5.
Proof.
  apply (two_polls_deliver_once_in_order "INBOX"
           (Scenario.inbox_polled [1; 2; 3] [1; 2; 3; 4; 5]) []
           (Scenario.message <$> [1; 2; 3]) (Scenario.message <$> [1; 2; 3; 4; 5]) []).
  - reflexivity.
  - reflexivity.
  - reflexivity.
  - intros source. eexists. reflexivity.
  - reflexivity.
  - reflexivity.
Defined.

(** C6: with watermark 1 and a fetch that yields the identifiers 5 then 3,
    the poll emits both and stores the watermark 3, the identifier of the last
    message in fetch order, although the maximum fetched is 5; the next poll on
    the same messages emits 5 a second time. *)
Theorem unsorted_fetch_watermark_is_not_max :
  (ImapImpl.watchMailbox "INBOX" (Scenario.inbox_polled [5; 3] [5; 3])).1 = Normal tt /\
  arrived (trace (ImapImpl.watchMailbox "INBOX" (Scenario.inbox_polled [5; 3] [5; 3])).2)
  = [5; 3] /\
  watermark "INBOX" (ImapImpl.watchMailbox "INBOX" (Scenario.inbox_polled [5; 3] [5; 3])).2
  = Some 3 /\
  max_list 1 [5; 3] = 5 /\
  arrived (trace (ImapImpl.watchMailbox "INBOX"
                    (ImapImpl.watchMailbox "INBOX"
                       (Scenario.inbox_polled [5; 3] [5; 3])).2).2)
  = [5; 3; 5].
Proof. repeat split; vm_compute; reflexivity. Qed.

(** ** The watermark across polls *)

(** *** Methods that leave the registry alone *)

Lemma keeps_ret {A} (a : A) : keeps_registry (ret a).
Proof. intros st. reflexivity. Qed.

Lemma keeps_get {A} (f : Imap -> A) : keeps_registry (get f).
Proof. intros st. reflexivity. Qed.

Lemma keeps_act (a : Action) : keeps_registry (act a).
Proof. intros st. reflexivity. Qed.

Lemma keeps_answer {A} (tape : Collaborators -> list (completion A)) rest :
  keeps_registry (answer tape rest).
Proof. intros st. unfold answer. by destruct (tape (world st)). Qed.

Lemma keeps_bind {A B} (c : M A) (k : A -> M B) :
  keeps_registry c -> (forall a, keeps_registry (k a)) -> keeps_registry (bind c k).
Proof.
  intros Hc Hk st. unfold bind. specialize (Hc st).
  destruct (c st) as [[a|] st1]; simpl in *; [by rewrite Hk|done].
Qed.

Lemma keeps_try_catch {A} (c handler : M A) :
  keeps_registry c -> keeps_registry handler -> keeps_registry (try_catch c handler).
Proof.
  intros Hc Hh st. unfold try_catch. specialize (Hc st).
  destruct (c st) as [[a|] st1]; simpl in *; [done|by rewrite Hh].
Qed.

Lemma keeps_log (message : LogMessage) : keeps_registry (log message).
Proof. intros st. unfold log. by destruct (logging (config st)) as [[|]|]. Qed.

Lemma keeps_parser (source : string) : keeps_registry (mailparser_simpleParser source).
Proof. intros st. reflexivity. Qed.

Lemma keeps_for_of {A} (xs : list A) (body : A -> M unit) :
  (forall x, keeps_registry (body x)) -> keeps_registry (for_of xs body).
Proof.
  intros Hbody. induction xs as [|x xs IH]; simpl.
  - apply keeps_ret.
  - apply keeps_bind; [apply Hbody|intros _; exact IH].
Qed.

Create HintDb frame.
#[local] Hint Resolve keeps_ret keeps_get keeps_act keeps_answer keeps_log keeps_parser : frame.
#[local] Hint Extern 2 (keeps_registry (bind _ _)) => apply keeps_bind; [|intros ?] : frame.
#[local] Hint Extern 2 (keeps_registry (try_catch _ _)) => apply keeps_try_catch : frame.
#[local] Hint Extern 3 (keeps_registry (match ?x with _ => _ end)) => destruct x : frame.

Lemma keeps_search (mailboxPath : string) (range : SearchRange) :
  keeps_registry (ImapImpl.search mailboxPath range).
Proof.
  unfold ImapImpl.search, getMailboxLock, client_fetch, release. auto 10 with frame.
Qed.

Lemma keeps_getNewMail (mailboxPath : string) (msg : FetchMessageObject) :
  keeps_registry (ImapImpl.getNewMail mailboxPath msg).
Proof. unfold ImapImpl.getNewMail. auto 10 with frame. Qed.

Lemma keeps_getLastMails_loop (mailbox : Mailbox) (msgs : list FetchMessageObject)
    (mails : list Mail) :
  keeps_registry (ImapImpl.getLastMails_loop mailbox msgs mails).
Proof.
  revert mails. induction msgs as [|msg msgs IH]; intros mails; simpl.
  - apply keeps_ret.
  - destruct (msg_uid msg >? lastUid mailbox); [|apply IH].
    apply keeps_bind; [apply keeps_getNewMail|intros mail; apply IH].
Qed.

Lemma keeps_getLastMails (mailbox : Mailbox) : keeps_registry (ImapImpl.getLastMails mailbox).
Proof.
  unfold ImapImpl.getLastMails.
  apply keeps_bind; [apply keeps_search|intros msgs; apply keeps_getLastMails_loop].
Qed.

(** *** The mails that a poll finds are above the watermark *)

Lemma getNewMail_uid (mailboxPath : string) (msg : FetchMessageObject) (st st' : Imap)
    (mail : Mail) :
  ImapImpl.getNewMail mailboxPath msg st = (Normal mail, st') -> uid mail = msg_uid msg.
Proof.
  unfold ImapImpl.getNewMail, mailparser_simpleParser. run_monad.
  destruct (simpleParser (world st) (msg_headers msg)) as [headers|]; [|discriminate].
  destruct (msg_bodyPart msg) as [bodyPart|].
  - destruct (simpleParser (world st) bodyPart) as [body|]; [|discriminate].
    by intros [= <- _].
  - by intros [= <- _].
Qed.

Lemma getLastMails_loop_newer (mailbox : Mailbox) (msgs : list FetchMessageObject)
    (acc mails : list Mail) (st st' : Imap) :
  ImapImpl.getLastMails_loop mailbox msgs acc st = (Normal mails, st') ->
  Forall (fun mail => lastUid mailbox < uid mail) acc ->
  Forall (fun mail => lastUid mailbox < uid mail) mails.
Proof.
  revert acc st. induction msgs as [|msg msgs IH]; intros acc st; simpl.
  - by intros [= <- _].
  - destruct (msg_uid msg >? lastUid mailbox) eqn:Hnew; [|apply IH].
    unfold bind.
    destruct (ImapImpl.getNewMail (path mailbox) msg st) as [[mail|] st1] eqn:Hmail;
      [|discriminate].
    intros Hloop Hacc. apply (IH _ _ Hloop).
    apply Forall_app. split; [exact Hacc|].
    apply Forall_singleton. rewrite (getNewMail_uid _ _ _ _ _ Hmail). lia.
Qed.

Lemma getLastMails_newer (mailbox : Mailbox) (mails : list Mail) (st st' : Imap) :
  ImapImpl.getLastMails mailbox st = (Normal mails, st') ->
  Forall (fun mail => lastUid mailbox < uid mail) mails.
Proof.
  unfold ImapImpl.getLastMails, bind.
  destruct (ImapImpl.search (path mailbox) (RangeString "1:*") st) as [[msgs|] st1];
    [|discriminate].
  intros Hloop. apply (getLastMails_loop_newer _ _ _ _ _ _ Hloop). constructor.
Qed.

(** *** One poll, whatever the collaborators answer *)

(** A poll never throws. *)
Lemma watchMailbox_returns (mailboxToWatch : string) (st : Imap) :
  (ImapImpl.watchMailbox mailboxToWatch st).1 = Normal tt.
Proof.
  unfold ImapImpl.watchMailbox, try_catch.
  match goal with |- context [let (_, _) := ?body st in _] => destruct (body st) as [[[]|] st1] end.
  - reflexivity.
  - unfold log. by destruct (logging (config st1)) as [[|]|].
Qed.

(** A poll either leaves the registry as it was, or raises the watermark of
    the polled mailbox. *)
Lemma watchMailbox_registry (mailboxToWatch : string) (st : Imap) :
  mailboxes (ImapImpl.watchMailbox mailboxToWatch st).2 = mailboxes st \/
  exists mailbox u,
    mailboxes st !! mailboxToWatch = Some mailbox /\
    lastUid mailbox < u /\
    mailboxes (ImapImpl.watchMailbox mailboxToWatch st).2
    = <[path mailbox := {| path := path mailbox; lastUid := u |}]>
        (<[mailboxToWatch := {| path := path mailbox; lastUid := u |}]> (mailboxes st)).
Proof.
  destruct (ImapImpl.watchMailbox mailboxToWatch st) as [r st'] eqn:Hrun. simpl.
  unfold ImapImpl.watchMailbox, try_catch in Hrun.
  unfold bind at 1 in Hrun. unfold get at 1 in Hrun.
  destruct (mailboxes st !! mailboxToWatch) as [mailbox|] eqn:Hmailbox.
  2: { left. unfold ret in Hrun. by injection Hrun as _ <-. }
  unfold bind at 1 in Hrun.
  pose proof (keeps_getLastMails mailbox st) as Hkeep.
  destruct (ImapImpl.getLastMails mailbox st) as [[mails|] st1] eqn:Hget; simpl in Hkeep.
  - destruct (last mails) as [newest|] eqn:Hlast.
    + right. exists mailbox, (uid newest). split; [reflexivity|]. split.
      * pose proof (getLastMails_newer _ _ _ _ Hget) as Hnewer.
        rewrite Forall_forall in Hnewer. apply Hnewer.
        apply last_Some in Hlast as [front ->]. set_solver.
      * unfold bind, ImapImpl.mailboxes_set in Hrun. simpl in Hrun.
        rewrite (for_of_act EmitNewMail) in Hrun. simpl in Hrun.
        injection Hrun as _ <-. simpl. by rewrite Hkeep.
    + left. unfold ret in Hrun. by injection Hrun as _ <-.
  - left. pose proof (keeps_log (LogErrorWatching mailboxToWatch) st1) as Hlog.
    rewrite Hrun in Hlog. simpl in Hlog. by rewrite Hlog.
Qed.

Lemma watchMailbox_keeps_wf (mailboxToWatch : string) (st : Imap) :
  registry_wf (mailboxes st) ->
  registry_wf (mailboxes (ImapImpl.watchMailbox mailboxToWatch st).2).
Proof.
  intros Hwf.
  destruct (watchMailbox_registry mailboxToWatch st)
    as [->|(mailbox & u & Hmailbox & _ & ->)]; [exact Hwf|].
  rewrite (Hwf _ _ Hmailbox), insert_insert_eq.
  intros key mb. rewrite lookup_insert. case_decide as Hkey.
  - intros [= <-]. exact Hkey.
  - apply Hwf.
Qed.

(** A poll never lowers a watermark. *)
Lemma watchMailbox_monotone (mailboxToWatch : string) (st : Imap) (key : string) (w : Z) :
  registry_wf (mailboxes st) ->
  watermark key st = Some w ->
  exists w', watermark key (ImapImpl.watchMailbox mailboxToWatch st).2 = Some w' /\ w <= w'.
Proof.
  intros Hwf Hw. unfold watermark in *.
  destruct (watchMailbox_registry mailboxToWatch st)
    as [->|(mailbox & u & Hmailbox & Hu & ->)].
  - exists w. split; [exact Hw|lia].
  - rewrite (Hwf _ _ Hmailbox), insert_insert_eq, lookup_insert.
    case_decide as Hkey.
    + subst key. rewrite Hmailbox in Hw. simpl in Hw. injection Hw as <-.
      exists u. split; [reflexivity|lia].
    + exists w. split; [exact Hw|lia].
Qed.

(** X24: no sequence of polls lowers a watermark, whatever the collaborators
    answer, as long as every key of the registry holds the mailbox of that
    path. *)
Lemma polls_monotone (paths : list string) (st : Imap) (key : string) (w : Z) :
  registry_wf (mailboxes st) ->
  watermark key st = Some w ->
  exists w', watermark key (polls paths st).2 = Some w' /\ w <= w'.
Proof.
  revert st w. induction paths as [|p paths IH]; intros st w Hwf Hw.
  - exists w. split; [exact Hw|lia].
  - unfold polls. simpl. unfold bind.
    pose proof (watchMailbox_returns p st) as Hret.
    pose proof (watchMailbox_keeps_wf p st Hwf) as Hwf1.
    destruct (watchMailbox_monotone p st key w Hwf Hw) as (w1 & Hw1 & Hle1).
    destruct (ImapImpl.watchMailbox p st) as [r st1]. simpl in *. subst r.
    destruct (IH st1 w1 Hwf1 Hw1) as (w' & Hw' & Hle').
    exists w'. split; [exact Hw'|lia].
Qed.

(** *** Fetches in ascending order *)

Lemma max_list_app (d : Z) (xs ys : list Z) :
  max_list d (xs ++ ys) = max_list (max_list d xs) ys.
Proof. revert d. induction xs as [|x xs IH]; intros d; simpl; [reflexivity|apply IH]. Qed.

Lemma default_last_cons (x y : Z) (rest : list Z) :
  default x (last (y :: rest)) = default y (last rest).
Proof. rewrite last_cons. by destruct (last rest). Qed.

Lemma sorted_last_is_max (x : Z) (rest : list Z) :
  StronglySorted Z.le (x :: rest) -> default x (last rest) = max_list x rest.
Proof.
  revert x. induction rest as [|y rest IH]; intros x Hsorted; [reflexivity|].
  apply StronglySorted_inv in Hsorted as [Hrest Hx].
  rewrite default_last_cons. simpl.
  replace (Z.max x y) with y by (inversion Hx; lia).
  by apply IH.
Qed.

Lemma filter_newer_all (w : Z) (us : list Z) :
  Forall (fun u => w < u) us -> List.filter (newer_than w) us = us.
Proof.
  induction 1 as [|u us Hu _ IH]; [reflexivity|]. simpl.
  unfold newer_than at 1. destruct (Z.gtb_spec u w); [by rewrite IH|lia].
Qed.

(** When the identifiers come in ascending order, the last one above the
    watermark is the maximum of the watermark and the identifiers. *)
Lemma sorted_newer_last_is_max (w : Z) (us : list Z) :
  StronglySorted Z.le us ->
  default w (last (List.filter (newer_than w) us)) = max_list w us.
Proof.
  induction us as [|x rest IH]; intros Hsorted; [reflexivity|].
  pose proof Hsorted as Hsorted'.
  apply StronglySorted_inv in Hsorted' as [Hrest Hx]. simpl.
  unfold newer_than at 1. destruct (Z.gtb_spec x w) as [Hnew|Hold].
  - rewrite filter_newer_all.
    + rewrite default_last_cons, (sorted_last_is_max x rest Hsorted).
      by replace (Z.max w x) with x by lia.
    + eapply Forall_impl; [exact Hx|]. simpl. intros u Hu. lia.
  - replace (Z.max w x) with w by lia. by apply IH.
Qed.

(** X25: successive polls of one mailbox against a store that grants every
    lock, answers every fetch in ascending identifier order and whose messages
    all parse: the watermark ends as the maximum of the initial watermark and
    of all the identifiers fetched. *)
Lemma polls_sorted_watermark_is_max (mailboxToWatch : string)
    (fetches : list (list FetchMessageObject)) (st : Imap) (w : Z)
    (tl : list (completion bool)) (tf : list (completion (list FetchMessageObject))) :
  mailboxes st !! mailboxToWatch = Some {| path := mailboxToWatch; lastUid := w |} ->
  lock_tape (world st) = replicate (length fetches) (Normal true) ++ tl ->
  fetch_tape (world st) = (Normal <$> fetches) ++ tf ->
  parser_total (world st) ->
  Forall (fun msgs => StronglySorted Z.le (msg_uid <$> msgs)) fetches ->
  watermark mailboxToWatch (polls (replicate (length fetches) mailboxToWatch) st).2
  = Some (max_list w (msg_uid <$> concat fetches)).
Proof.
  revert st w.
  induction fetches as [|msgs fetches IH]; intros st w Hmailbox Hlock Hfetch Htotal Hsorted.
  - unfold watermark. simpl. by rewrite Hmailbox.
  - apply Forall_cons in Hsorted as [Hmsgs Hsorted].
    destruct (watchMailbox_polled mailboxToWatch st w _ msgs _ Hmailbox Hlock Hfetch Htotal)
      as (st1 & Hrun & _ & Hmailbox1 & Hlock1 & Hfetch1 & Hparser1).
    rewrite (sorted_newer_last_is_max w _ Hmsgs) in Hmailbox1.
    assert (parser_total (world st1)) as Htotal1.
    { intros source. rewrite Hparser1. apply Htotal. }
    unfold polls. simpl. unfold bind. rewrite Hrun.
    fold (polls (replicate (length fetches) mailboxToWatch)).
    rewrite (IH st1 _ Hmailbox1 Hlock1 Hfetch1 Htotal1 Hsorted).
    by rewrite fmap_app, max_list_app.
Qed.

(** *** The registry stays well formed *)

Lemma keeps_registry_wf {A} (c : M A) : keeps_registry c -> keeps_wf c.
Proof. intros Hc st Hwf. by rewrite Hc. Qed.

Lemma keeps_wf_bind {A B} (c : M A) (k : A -> M B) :
  keeps_wf c -> (forall a, keeps_wf (k a)) -> keeps_wf (bind c k).
Proof.
  intros Hc Hk st Hwf. unfold bind. specialize (Hc st Hwf).
  destruct (c st) as [[a|] st1]; simpl in *; [by apply Hk|done].
Qed.

Lemma keeps_wf_for_of {A} (xs : list A) (body : A -> M unit) :
  (forall x, keeps_wf (body x)) -> keeps_wf (for_of xs body).
Proof.
  intros Hbody. induction xs as [|x xs IH]; simpl.
  - apply keeps_registry_wf, keeps_ret.
  - apply keeps_wf_bind; [apply Hbody|intros _; exact IH].
Qed.

Lemma keeps_push_loadedMail (mail : Mail) : keeps_registry (ImapImpl.push_loadedMail mail).
Proof. intros st. reflexivity. Qed.

Lemma keeps_getLastUid_loop (mailboxPath : string) (loading : bool)
    (msgs : list FetchMessageObject) (lastUid : Z) :
  keeps_registry (ImapImpl.getLastUid_loop mailboxPath loading msgs lastUid).
Proof.
  revert lastUid. induction msgs as [|msg msgs IH]; intros lastUid; simpl.
  - apply keeps_ret.
  - apply keeps_bind; [|intros _; apply IH].
    destruct loading; [|apply keeps_ret].
    apply keeps_bind; [apply keeps_getNewMail|intros mail; apply keeps_push_loadedMail].
Qed.

Lemma keeps_getLastUid (mailboxPath : string) (loading : bool) :
  keeps_registry (ImapImpl.getLastUid mailboxPath loading).
Proof.
  unfold ImapImpl.getLastUid.
  apply keeps_bind; [apply keeps_search|intros msgs; apply keeps_getLastUid_loop].
Qed.

Lemma mailboxes_set_own_path (mailbox : Mailbox) :
  keeps_wf (ImapImpl.mailboxes_set (path mailbox) mailbox).
Proof.
  intros st Hwf key mb. simpl. rewrite lookup_insert. case_decide as Hkey.
  - by intros [= <-].
  - apply Hwf.
Qed.

(** [loadMailboxes] stores every mailbox under its own path. *)
Lemma loadMailboxes_wf : keeps_wf ImapImpl.loadMailboxes.
Proof.
  unfold ImapImpl.loadMailboxes.
  apply keeps_wf_bind.
  { apply keeps_registry_wf. unfold client_list. auto with frame. }
  intros listResponses. apply keeps_wf_bind.
  - apply keeps_wf_for_of. intros list_path. apply keeps_wf_bind.
    + apply keeps_registry_wf, keeps_getLastUid.
    + intros lastUid. apply (mailboxes_set_own_path {| path := list_path; lastUid := lastUid |}).
  - intros _. apply keeps_registry_wf. auto with frame.
Qed.

Lemma watchMailbox_wf (mailboxToWatch : string) : keeps_wf (ImapImpl.watchMailbox mailboxToWatch).
Proof. intros st. apply watchMailbox_keeps_wf. Qed.

(** Every task that a timer runs keeps the registry well formed, and the
    registry of a new [Imap] object is well formed. *)
Lemma run_wf : keeps_wf ImapImpl.run.
Proof.
  unfold ImapImpl.run.
  apply keeps_wf_bind.
  { apply keeps_registry_wf.
    unfold ImapImpl.connect, ImapImpl.restart, new_ImapFlow, client_connect, setTimeout.
    auto 10 with frame. }
  intros _. apply keeps_wf_bind; [apply keeps_registry_wf, keeps_act|].
  intros _. apply keeps_wf_bind; [apply loadMailboxes_wf|].
  intros _. apply keeps_wf_bind; [|intros _; apply keeps_registry_wf, keeps_act].
  unfold ImapImpl.watchMailboxes.
  apply keeps_wf_bind; [apply keeps_registry_wf, keeps_get|].
  intros cfg. destruct (mailboxesToWatch cfg) as [toWatch|];
    [|apply keeps_registry_wf, keeps_ret].
  apply keeps_wf_for_of. intros mailboxToWatch.
  apply keeps_wf_bind; [apply keeps_registry_wf, keeps_log|].
  intros _. apply keeps_wf_bind; [apply watchMailbox_wf|].
  intros _. apply keeps_registry_wf, keeps_act.
Qed.

Lemma run_task_wf (task : Task) : keeps_wf (ImapImpl.run_task task).
Proof.
  destruct task as [| |mailboxToWatch]; simpl.
  - apply run_wf.
  - apply keeps_registry_wf. unfold ImapImpl.emitLoadedMails.
    apply keeps_bind; [apply keeps_get|]. intros loaded.
    apply keeps_bind; [apply keeps_for_of; intros mail; apply keeps_act|].
    intros _ st. reflexivity.
  - apply watchMailbox_wf.
Qed.

Lemma new_Imap_wf (cfg : ImapConfig) (w : Collaborators) :
  registry_wf (mailboxes (new_Imap cfg w)).
Proof. intros key mailbox. simpl. by rewrite lookup_empty. Qed.

(** ** Reading a mailbox: [search] and the queries *)

(** X1: when the lock is not obtained, [search] returns the empty list; the
    request for the lock is its only action: nothing is fetched and nothing is
    released. *)
Theorem search_lock_unavailable
    (mailboxPath : string) (range : SearchRange) (st : Imap) (tl : list (completion bool)) :
  lock_tape (world st) = Normal false :: tl ->
  exists st',
    ImapImpl.search mailboxPath range st = (Normal [], st') /\
    performed st st' = [GetMailboxLock mailboxPath] /\
    fetch_tape (world st') = fetch_tape (world st) /\
    mailboxes st' = mailboxes st /\ loadedMails st' = loadedMails st.
Proof.
  intros Hlock. open_state st.
  unfold ImapImpl.search, getMailboxLock. run_monad.
  eexists; split; [reflexivity|].
  unfold performed. simpl. rewrite drop_app_length. by repeat split.
Qed.

Lemma search_lock_unavailable_witness :
  exists st',
    ImapImpl.search "INBOX" (RangeString "1:*") Scenario.inbox_locked = (Normal [], st') /\
    performed Scenario.inbox_locked st' = [GetMailboxLock "INBOX"] /\
    fetch_tape (world st') = fetch_tape (world Scenario.inbox_locked) /\
    mailboxes st' = mailboxes Scenario.inbox_locked /\
    loadedMails st' = loadedMails Scenario.inbox_locked.
Proof.
  apply (search_lock_unavailable "INBOX" (RangeString "1:*") Scenario.inbox_locked []).
  reflexivity.
Defined.

(** X2: with the lock granted, [search] fetches and then releases the lock
    once, returning the messages in the order of the fetch; when the fetch
    throws, [search] throws too and the lock is not released. *)
Theorem search_lock_discipline
    (mailboxPath : string) (range : SearchRange) (st : Imap) (tl : list (completion bool))
    (r : completion (list FetchMessageObject))
    (tf : list (completion (list FetchMessageObject))) :
  lock_tape (world st) = Normal true :: tl ->
  fetch_tape (world st) = r :: tf ->
  exists st',
    ImapImpl.search mailboxPath range st = (r, st') /\
    performed st st' =
      GetMailboxLock mailboxPath :: Fetch range ::
      match r with Normal _ => [Release mailboxPath] | Throw => [] end /\
    count_releases (performed st st') = match r with Normal _ => 1%nat | Throw => 0%nat end /\
    lock_tape (world st') = tl /\ fetch_tape (world st') = tf.
Proof.
  intros Hlock Hfetch. open_state st.
  unfold ImapImpl.search, getMailboxLock, client_fetch, release. run_monad.
  destruct r as [msgs|]; simpl;
    (eexists; split; [reflexivity|]; unfold performed; simpl;
     rewrite <- ?app_assoc, drop_app_length; by repeat split).
Qed.

Lemma search_lock_discipline_witness :
  exists st',
    ImapImpl.search "INBOX" (RangeString "1:*") (Scenario.inbox_polled [4; 2] [])
    = (Normal (Scenario.message <$> [4; 2]), st') /\
    performed (Scenario.inbox_polled [4; 2] []) st'
    = [GetMailboxLock "INBOX"; Fetch (RangeString "1:*"); Release "INBOX"] /\
    count_releases (performed (Scenario.inbox_polled [4; 2] []) st') = 1%nat /\
    lock_tape (world st') = [Normal true] /\
    fetch_tape (world st') = [Normal []].
Proof.
  apply (search_lock_discipline "INBOX" (RangeString "1:*")
           (Scenario.inbox_polled [4; 2] []) [Normal true]
           (Normal (Scenario.message <$> [4; 2])) [Normal []]).
  - reflexivity.
  - reflexivity.
Defined.

Lemma getNewMail_fields (p : string) (msg : FetchMessageObject) (st : Imap) :
  parser_total (world st) ->
  exists mail,
    ImapImpl.getNewMail p msg st = (Normal mail, st) /\
    uid mail = msg_uid msg /\ seq mail = msg_seq msg /\ mailboxPath mail = p.
Proof.
  intros Htotal. unfold ImapImpl.getNewMail, mailparser_simpleParser. run_monad.
  destruct (Htotal (msg_headers msg)) as [headers ->].
  destruct (msg_bodyPart msg) as [bodyPart|].
  - destruct (Htotal bodyPart) as [body ->]. eexists; repeat split; reflexivity.
  - eexists; repeat split; reflexivity.
Qed.

Lemma mails_of_total (p : string) (msgs : list FetchMessageObject) (acc : list Mail)
    (st : Imap) :
  parser_total (world st) ->
  exists found,
    ImapImpl.mails_of p msgs acc st = (Normal (acc ++ found), st) /\
    uid <$> found = msg_uid <$> msgs /\
    seq <$> found = msg_seq <$> msgs /\
    Forall (fun mail => mailboxPath mail = p) found.
Proof.
  intros Htotal. revert acc.
  induction msgs as [|msg msgs IH]; intros acc.
  - exists []. simpl. rewrite app_nil_r. by repeat split.
  - cbn [ImapImpl.mails_of]. unfold bind.
    destruct (getNewMail_fields p msg st Htotal) as (mail & -> & Huid & Hseq & Hpath).
    destruct (IH (acc ++ [mail])) as (found & -> & Huids & Hseqs & Hpaths).
    exists (mail :: found). rewrite <- app_assoc. split; [reflexivity|].
    rewrite !fmap_cons, Huid, Hseq, Huids, Hseqs. repeat split. by constructor.
Qed.

(** X3: [getAllMails], [getSeenMails] and [getUnseenMails] search with their
    own range and return one mail per message found, in the order of the
    search and whatever the watermark; they leave the registry and the buffer
    of loaded mails alone and emit nothing. *)
Theorem query_returns_every_message
    (q : MailQuery) (p : string) (st : Imap) (tl : list (completion bool))
    (msgs : list FetchMessageObject) (tf : list (completion (list FetchMessageObject))) :
  lock_tape (world st) = Normal true :: tl ->
  fetch_tape (world st) = Normal msgs :: tf ->
  parser_total (world st) ->
  exists mails st',
    query q p st = (Normal mails, st') /\
    uid <$> mails = msg_uid <$> msgs /\
    seq <$> mails = msg_seq <$> msgs /\
    Forall (fun mail => mailboxPath mail = p) mails /\
    performed st st' = [GetMailboxLock p; Fetch (query_range q); Release p] /\
    mailboxes st' = mailboxes st /\ loadedMails st' = loadedMails st.
Proof.
  intros Hlock Hfetch Htotal.
  set (st1 := after_search p (query_range q) tl tf st).
  assert (parser_total (world st1)) as Htotal1 by (by destruct st as [? ? ? []]).
  destruct (mails_of_total p msgs [] st1 Htotal1) as (mails & Hloop & Huids & Hseqs & Hpaths).
  simpl in Hloop.
  exists mails, st1.
  split.
  { destruct q; simpl;
      unfold ImapImpl.getAllMails, ImapImpl.getSeenMails, ImapImpl.getUnseenMails, bind;
      by rewrite (search_granted _ _ _ tl msgs tf Hlock Hfetch). }
  repeat split; try done.
  apply performed_app. reflexivity.
Qed.

Lemma query_returns_every_message_witness :
  exists mails st',
    query UnseenMails "INBOX" (Scenario.tracking 9 (Scenario.store 1 [[7; 3]] []))
    = (Normal mails, st') /\
    uid <$> mails = msg_uid <$> (Scenario.message <$> [7; 3]) /\
    seq <$> mails = msg_seq <$> (Scenario.message <$> [7; 3]) /\
    Forall (fun mail => mailboxPath mail = "INBOX") mails /\
    performed (Scenario.tracking 9 (Scenario.store 1 [[7; 3]] [])) st'
    = [GetMailboxLock "INBOX"; Fetch (RangeSeen false); Release "INBOX"] /\
    mailboxes st' = mailboxes (Scenario.tracking 9 (Scenario.store 1 [[7; 3]] [])) /\
    loadedMails st' = loadedMails (Scenario.tracking 9 (Scenario.store 1 [[7; 3]] [])).
Proof.
  apply (query_returns_every_message UnseenMails "INBOX"
           (Scenario.tracking 9 (Scenario.store 1 [[7; 3]] [])) []
           (Scenario.message <$> [7; 3]) []).
  - reflexivity.
  - reflexivity.
  - intros source. eexists. reflexivity.
Defined.

(** X4: when the lock is not obtained, the queries return the empty list;
    the request for the lock is their only action. *)
Theorem query_lock_unavailable
    (q : MailQuery) (p : string) (st : Imap) (tl : list (completion bool)) :
  lock_tape (world st) = Normal false :: tl ->
  exists st',
    query q p st = (Normal [], st') /\
    performed st st' = [GetMailboxLock p].
Proof.
  intros Hlock. open_state st.
  destruct q; simpl;
    unfold ImapImpl.getAllMails, ImapImpl.getSeenMails, ImapImpl.getUnseenMails,
      ImapImpl.search, getMailboxLock; run_monad;
    (eexists; split; [reflexivity|]; unfold performed; simpl; apply drop_app_length).
Qed.

Lemma query_lock_unavailable_witness :
  exists st',
    query AllMails "INBOX" Scenario.inbox_locked = (Normal [], st') /\
    performed Scenario.inbox_locked st' = [GetMailboxLock "INBOX"].
Proof.
  apply (query_lock_unavailable AllMails "INBOX" Scenario.inbox_locked []).
  reflexivity.
Defined.

(** ** The initial scan: [getLastUid] and [loadMailboxes] *)

Lemma max_list_ge (d : Z) (xs : list Z) : d <= max_list d xs.
Proof.
  revert d. induction xs as [|x xs IH]; intros d; simpl; [lia|].
  specialize (IH (Z.max d x)). lia.
Qed.

Lemma max_list_upper (d : Z) (xs : list Z) (x : Z) : x ∈ xs -> x <= max_list d xs.
Proof.
  revert d. induction xs as [|y xs IH]; intros d Hin; [by apply elem_of_nil in Hin|].
  apply elem_of_cons in Hin as [->|Hin]; simpl.
  - pose proof (max_list_ge (Z.max d y) xs). lia.
  - by apply IH.
Qed.

Lemma max_list_attained (d : Z) (xs : list Z) : max_list d xs = d \/ max_list d xs ∈ xs.
Proof.
  revert d. induction xs as [|y xs IH]; intros d; simpl; [by left|].
  destruct (IH (Z.max d y)) as [Hmax|Hin].
  - rewrite Hmax. destruct (Z.max_spec d y) as [[_ ->]|[_ ->]]; [right; set_solver|by left].
  - right. set_solver.
Qed.

Lemma newer_is_max (x d : Z) : (if x >? d then x else d) = Z.max d x.
Proof. destruct (Z.gtb_spec x d); lia. Qed.

(** Without loading, the scan loop only computes the running maximum. *)
Lemma getLastUid_loop_scan (p : string) (msgs : list FetchMessageObject) (d : Z) (st : Imap) :
  ImapImpl.getLastUid_loop p false msgs d st
  = (Normal (max_list d (msg_uid <$> msgs)), st).
Proof.
  revert d. induction msgs as [|msg msgs IH]; intros d; [reflexivity|].
  cbn [ImapImpl.getLastUid_loop]. unfold bind, ret. rewrite fmap_cons. simpl.
  by rewrite newer_is_max, IH.
Qed.

(** With loading, it also appends one mail per message to the buffer. *)
Lemma getLastUid_loop_loading (p : string) (msgs : list FetchMessageObject) (d : Z)
    (st : Imap) :
  parser_total (world st) ->
  exists mails,
    ImapImpl.getLastUid_loop p true msgs d st
    = (Normal (max_list d (msg_uid <$> msgs)),
       set_loadedMails (loadedMails st ++ mails) st) /\
    uid <$> mails = msg_uid <$> msgs /\
    Forall (fun mail => mailboxPath mail = p) mails.
Proof.
  intros Htotal. revert d st Htotal.
  induction msgs as [|msg msgs IH]; intros d st Htotal.
  - exists []. simpl. unfold ret. rewrite app_nil_r.
    destruct st; by repeat split.
  - cbn [ImapImpl.getLastUid_loop]. unfold bind.
    destruct (getNewMail_fields p msg st Htotal) as (mail & -> & Huid & _ & Hpath).
    unfold ImapImpl.push_loadedMail at 1.
    set (st1 := set_loadedMails (loadedMails st ++ [mail]) st).
    assert (parser_total (world st1)) as Htotal1 by exact Htotal.
    destruct (IH (if msg_uid msg >? d then msg_uid msg else d) st1 Htotal1)
      as (mails & -> & Huids & Hpaths).
    exists (mail :: mails). rewrite !fmap_cons, Huid, Huids. simpl.
    rewrite newer_is_max. split; [|split; [reflexivity|by constructor]].
    f_equal. unfold st1, set_loadedMails. simpl. by rewrite <- app_assoc.
Qed.

(** [getLastUid] against a store that grants the lock and answers the
    fetch. *)
Lemma getLastUid_granted (p : string) (loading : bool) (st : Imap) tl msgs tf :
  lock_tape (world st) = Normal true :: tl ->
  fetch_tape (world st) = Normal msgs :: tf ->
  (loading = true -> parser_total (world st)) ->
  exists mails,
    ImapImpl.getLastUid p loading st
    = (Normal (max_list 1 (msg_uid <$> msgs)),
       set_loadedMails (loadedMails st ++ mails)
         (after_search p (RangeString "1:*") tl tf st)) /\
    uid <$> mails = (if loading then msg_uid <$> msgs else []) /\
    Forall (fun mail => mailboxPath mail = p) mails.
Proof.
  intros Hlock Hfetch Htotal.
  unfold ImapImpl.getLastUid, bind.
  rewrite (search_granted _ _ _ tl msgs tf Hlock Hfetch).
  set (st1 := after_search p (RangeString "1:*") tl tf st).
  destruct loading.
  - assert (parser_total (world st1)) as Htotal1.
    { specialize (Htotal eq_refl). by destruct st as [? ? ? []]. }
    destruct (getLastUid_loop_loading p msgs 1 st1 Htotal1) as (mails & -> & Huids & Hpaths).
    by exists mails.
  - exists []. rewrite getLastUid_loop_scan, app_nil_r.
    split; [|by split]. f_equal.
Qed.

(** X5: [getLastUid], with the lock granted and the fetch answered, returns
    the largest identifier found, in whatever order the messages come, and 1
    when none exceeds 1; with [loading] it appends one mail per message, in
    fetch order, to the buffer of loaded mails, and otherwise leaves the buffer
    alone.  The registry is not touched. *)
Theorem getLastUid_is_max
    (p : string) (loading : bool) (st : Imap) (tl : list (completion bool))
    (msgs : list FetchMessageObject) (tf : list (completion (list FetchMessageObject))) :
  lock_tape (world st) = Normal true :: tl ->
  fetch_tape (world st) = Normal msgs :: tf ->
  (loading = true -> parser_total (world st)) ->
  exists w st',
    ImapImpl.getLastUid p loading st = (Normal w, st') /\
    1 <= w /\
    (forall msg, msg ∈ msgs -> msg_uid msg <= w) /\
    (w = 1 \/ exists msg, msg ∈ msgs /\ msg_uid msg = w) /\
    uid <$> loadedMails st'
    = (uid <$> loadedMails st) ++ (if loading then msg_uid <$> msgs else []) /\
    mailboxes st' = mailboxes st.
Proof.
  intros Hlock Hfetch Htotal.
  destruct (getLastUid_granted p loading st tl msgs tf Hlock Hfetch Htotal)
    as (mails & Hrun & Huids & _).
  eexists _, _. split; [exact Hrun|].
  split; [apply max_list_ge|]. split; [|split; [|split]].
  - intros msg Hmsg. apply max_list_upper. by apply list_elem_of_fmap_2.
  - destruct (max_list_attained 1 (msg_uid <$> msgs)) as [Hone|Hin]; [by left|].
    right. apply list_elem_of_fmap in Hin as (msg & Hw & Hmsg). by exists msg.
  - simpl. by rewrite fmap_app, Huids.
  - reflexivity.
Qed.

Lemma getLastUid_is_max_witness :
  exists w st',
    ImapImpl.getLastUid "INBOX" true (Scenario.inbox_polled [5; 9; 3] []) = (Normal w, st') /\
    1 <= w /\
    (forall msg, msg ∈ Scenario.message <$> [5; 9; 3] -> msg_uid msg <= w) /\
    (w = 1 \/ exists msg, msg ∈ Scenario.message <$> [5; 9; 3] /\ msg_uid msg = w) /\
    uid <$> loadedMails st'
    = (uid <$> loadedMails (Scenario.inbox_polled [5; 9; 3] []))
      ++ (msg_uid <$> (Scenario.message <$> [5; 9; 3])) /\
    mailboxes st' = mailboxes (Scenario.inbox_polled [5; 9; 3] []).
Proof.
  apply (getLastUid_is_max "INBOX" true (Scenario.inbox_polled [5; 9; 3] [])
           [Normal true] (Scenario.message <$> [5; 9; 3]) [Normal []]).
  - reflexivity.
  - reflexivity.
  - intros _ source. eexists. reflexivity.
Defined.

(** X6: when the lock is not obtained, [getLastUid] returns the sentinel 1
    and loads nothing. *)
Theorem getLastUid_lock_unavailable
    (p : string) (loading : bool) (st : Imap) (tl : list (completion bool)) :
  lock_tape (world st) = Normal false :: tl ->
  exists st',
    ImapImpl.getLastUid p loading st = (Normal 1, st') /\
    performed st st' = [GetMailboxLock p] /\
    loadedMails st' = loadedMails st /\ mailboxes st' = mailboxes st.
Proof.
  intros Hlock. open_state st.
  unfold ImapImpl.getLastUid, ImapImpl.search, getMailboxLock. run_monad.
  eexists; split; [reflexivity|].
  unfold performed. simpl. rewrite drop_app_length. by repeat split.
Qed.

Lemma getLastUid_lock_unavailable_witness :
  exists st',
    ImapImpl.getLastUid "INBOX" true Scenario.inbox_locked = (Normal 1, st') /\
    performed Scenario.inbox_locked st' = [GetMailboxLock "INBOX"] /\
    loadedMails st' = loadedMails Scenario.inbox_locked /\
    mailboxes st' = mailboxes Scenario.inbox_locked.
Proof.
  apply (getLastUid_lock_unavailable "INBOX" true Scenario.inbox_locked []).
  reflexivity.
Defined.

(** The loop of [loadMailboxes], one scan per listed path. *)
Lemma loadMailboxes_loop_granted (paths : list string)
    (fetches : list (list FetchMessageObject)) (st : Imap)
    (tl : list (completion bool)) (tf : list (completion (list FetchMessageObject))) :
  length fetches = length paths ->
  lock_tape (world st) = replicate (length paths) (Normal true) ++ tl ->
  fetch_tape (world st) = (Normal <$> fetches) ++ tf ->
  parser_total (world st) ->
  exists st',
    for_of paths (fun list_path =>
      bind (ImapImpl.getLastUid list_path true) (fun lastUid =>
        ImapImpl.mailboxes_set list_path {| path := list_path; lastUid := lastUid |})) st
    = (Normal tt, st') /\
    mailboxes st' = loaded_registry (mailboxes st) (zip paths fetches) /\
    uid <$> loadedMails st' = (uid <$> loadedMails st) ++ (msg_uid <$> concat fetches) /\
    trace st' = trace st ++
      concat ((fun p => [GetMailboxLock p; Fetch (RangeString "1:*"); Release p]) <$> paths) /\
    config st' = config st.
Proof.
  revert fetches st.
  induction paths as [|p paths IH]; intros fetches st Hlen Hlock Hfetch Htotal.
  - destruct fetches; [|discriminate]. simpl in *. unfold ret.
    exists st. rewrite !app_nil_r. by repeat split.
  - destruct fetches as [|msgs fetches]; [discriminate|]. simpl in Hlen, Hlock, Hfetch.
    destruct (getLastUid_granted p true st _ msgs _ Hlock Hfetch (fun _ => Htotal))
      as (mails & Hscan & Huids & _).
    cbn [for_of]. unfold bind at 1. unfold bind at 1. rewrite Hscan.
    unfold ImapImpl.mailboxes_set at 1.
    match goal with |- context [for_of paths _ ?s] => set (st1 := s) end.
    assert (parser_total (world st1)) as Htotal1 by (by destruct st as [? ? ? []]).
    assert (lock_tape (world st1) = replicate (length paths) (Normal true) ++ tl) as Hlock1
      by (by destruct st as [? ? ? []]).
    assert (fetch_tape (world st1) = (Normal <$> fetches) ++ tf) as Hfetch1
      by (by destruct st as [? ? ? []]).
    assert (length fetches = length paths) as Hlen1 by lia.
    destruct (IH fetches st1 Hlen1 Hlock1 Hfetch1 Htotal1)
      as (st' & -> & Hreg & Hloaded & Htrace & Hcfg).
    exists st'. split; [reflexivity|].
    rewrite Hreg, Hloaded, Htrace, Hcfg. unfold st1. simpl.
    rewrite !fmap_app, Huids, <- !app_assoc. by repeat split.
Qed.

(** X7: [loadMailboxes] against a store that lists the mailboxes, grants
    every scan its lock, answers every fetch and whose messages all parse:
    every listed path is stored under its own key with the largest identifier
    found there (1 if none exceeds 1), a later occurrence of a path replacing
    an earlier one; one mail per message found is appended to the buffer of
    loaded mails, mailbox after mailbox; every lock taken is released, and no
    event is emitted. *)
Theorem loadMailboxes_builds_registry
    (paths : list string) (fetches : list (list FetchMessageObject)) (st : Imap)
    (tls : list (completion (list string))) (tl : list (completion bool))
    (tf : list (completion (list FetchMessageObject))) :
  list_tape (world st) = Normal paths :: tls ->
  length fetches = length paths ->
  lock_tape (world st) = replicate (length paths) (Normal true) ++ tl ->
  fetch_tape (world st) = (Normal <$> fetches) ++ tf ->
  parser_total (world st) ->
  exists st',
    ImapImpl.loadMailboxes st = (Normal tt, st') /\
    mailboxes st' = loaded_registry (mailboxes st) (zip paths fetches) /\
    uid <$> loadedMails st' = (uid <$> loadedMails st) ++ (msg_uid <$> concat fetches) /\
    count_actions is_emit (performed st st') = 0%nat /\
    count_actions (fun a => match a with GetMailboxLock _ => true | _ => false end)
      (performed st st') = length paths /\
    count_releases (performed st st') = length paths.
Proof.
  intros Hlist Hlen Hlock Hfetch Htotal.
  unfold ImapImpl.loadMailboxes, client_list.
  unfold bind at 1. unfold bind at 1. unfold act at 1. unfold answer at 1. simpl.
  rewrite Hlist.
  match goal with |- context [bind (for_of paths _) _ ?s] => set (st0 := s) end.
  assert (parser_total (world st0)) as Htotal0 by (by destruct st as [? ? ? []]).
  assert (lock_tape (world st0) = replicate (length paths) (Normal true) ++ tl) as Hlock0
    by (by destruct st as [? ? ? []]).
  assert (fetch_tape (world st0) = (Normal <$> fetches) ++ tf) as Hfetch0
    by (by destruct st as [? ? ? []]).
  destruct (loadMailboxes_loop_granted paths fetches st0 tl tf Hlen Hlock0 Hfetch0 Htotal0)
    as (st1 & Hloop & Hreg & Hloaded & Htrace & Hcfg).
  unfold bind at 1. simpl in Hloop. rewrite Hloop.
  unfold bind, get, log.
  set (scans := concat ((fun p => [GetMailboxLock p; Fetch (RangeString "1:*"); Release p])
                          <$> paths)) in *.
  assert (count_actions is_emit scans = 0%nat /\
          count_actions (fun a => match a with GetMailboxLock _ => true | _ => false end) scans
          = length paths /\
          count_releases scans = length paths) as (Hemit & Hlocks & Hrel).
  { unfold scans, count_actions, count_releases. clear.
    induction paths as [|p paths (IH1 & IH2 & IH3)]; [done|].
    rewrite fmap_cons. simpl. by rewrite IH1, IH2, IH3. }
  clearbody scans.
  destruct (logging (config st1)) as [[|]|] eqn:Hlog.
  all: eexists; split; [reflexivity|].
  all: unfold performed, act; simpl; rewrite Htrace; simpl.
  all: rewrite <- ?app_assoc, drop_app_length; simpl.
  all: unfold count_actions, count_releases in *; simpl.
  all: rewrite ?List.filter_app, ?length_app, ?Hemit, ?Hlocks, ?Hrel; simpl.
  all: rewrite ?app_nil_r, ?Nat.add_0_r.
  all: split; [exact Hreg|]; split; [exact Hloaded|]; by repeat split.
Qed.

Lemma loadMailboxes_builds_registry_witness :
  exists st',
    ImapImpl.loadMailboxes
      (new_Imap Scenario.default_config (Scenario.listing ["INBOX"; "Sent"] [[4; 2]; []]))
    = (Normal tt, st') /\
    mailboxes st'
    = loaded_registry ∅ (zip ["INBOX"; "Sent"] [Scenario.message <$> [4; 2]; []]) /\
    uid <$> loadedMails st' = [] ++ (msg_uid <$> concat [Scenario.message <$> [4; 2]; []]) /\
    count_actions is_emit
      (performed
         (new_Imap Scenario.default_config (Scenario.listing ["INBOX"; "Sent"] [[4; 2]; []]))
         st') = 0%nat /\
    count_actions (fun a => match a with GetMailboxLock _ => true | _ => false end)
      (performed
         (new_Imap Scenario.default_config (Scenario.listing ["INBOX"; "Sent"] [[4; 2]; []]))
         st') = 2%nat /\
    count_releases
      (performed
         (new_Imap Scenario.default_config (Scenario.listing ["INBOX"; "Sent"] [[4; 2]; []]))
         st') = 2%nat.
Proof.
  apply (loadMailboxes_builds_registry ["INBOX"; "Sent"] [Scenario.message <$> [4; 2]; []]
           (new_Imap Scenario.default_config (Scenario.listing ["INBOX"; "Sent"] [[4; 2]; []]))
           [] [] []).
  - reflexivity.
  - reflexivity.
  - reflexivity.
  - reflexivity.
  - intros source. eexists. reflexivity.
Defined.

Lemma getLastUid_loop_ge (p : string) (loading : bool) (msgs : list FetchMessageObject)
    (d w : Z) (st st' : Imap) :
  ImapImpl.getLastUid_loop p loading msgs d st = (Normal w, st') -> d <= w.
Proof.
  revert d st. induction msgs as [|msg msgs IH]; intros d st.
  - simpl. unfold ret. intros [= <- _]. lia.
  - cbn [ImapImpl.getLastUid_loop]. unfold bind at 1.
    match goal with |- context [let (_, _) := ?c st in _] => destruct (c st) as [[[]|] st1] end;
      [|discriminate].
    intros Hloop. apply IH in Hloop. rewrite newer_is_max in Hloop. lia.
Qed.

Lemma getLastUid_ge (p : string) (loading : bool) (w : Z) (st st' : Imap) :
  ImapImpl.getLastUid p loading st = (Normal w, st') -> 1 <= w.
Proof.
  unfold ImapImpl.getLastUid, bind.
  destruct (ImapImpl.search p (RangeString "1:*") st) as [[msgs|] st1]; [|discriminate].
  apply getLastUid_loop_ge.
Qed.

(** What the loop of [loadMailboxes] has stored when it ends normally,
    whatever the collaborators answered. *)
Lemma loadMailboxes_loop_registers (paths : list string) (st st' : Imap) :
  for_of paths (fun list_path =>
    bind (ImapImpl.getLastUid list_path true) (fun lastUid =>
      ImapImpl.mailboxes_set list_path {| path := list_path; lastUid := lastUid |})) st
  = (Normal tt, st') ->
  (forall p, p ∈ paths ->
     exists w, mailboxes st' !! p = Some {| path := p; lastUid := w |} /\ 1 <= w) /\
  (forall key, key ∉ paths -> mailboxes st' !! key = mailboxes st !! key).
Proof.
  revert st. induction paths as [|p paths IH]; intros st.
  - simpl. unfold ret. intros [= <-].
    split; [intros p Hp; by apply elem_of_nil in Hp|done].
  - cbn [for_of]. unfold bind at 1. unfold bind at 1.
    pose proof (keeps_getLastUid p true st) as Hkeep.
    destruct (ImapImpl.getLastUid p true st) as [[w|] st0] eqn:Hscan; [|discriminate].
    apply getLastUid_ge in Hscan. simpl in Hkeep.
    unfold ImapImpl.mailboxes_set at 1.
    match goal with |- for_of paths _ ?s = _ -> _ => set (st1 := s) end.
    intros Hloop. destruct (IH st1 Hloop) as [Hlisted Hother].
    assert (mailboxes st1 = <[p := {| path := p; lastUid := w |}]> (mailboxes st)) as Hst1
      by (unfold st1; simpl; by rewrite Hkeep).
    split.
    + intros q Hq. destruct (decide (q ∈ paths)) as [Hin|Hnotin]; [by apply Hlisted|].
      apply elem_of_cons in Hq as [->|Hq]; [|done].
      exists w. rewrite (Hother p Hnotin), Hst1, lookup_insert_eq. by split.
    + intros key Hkey. apply not_elem_of_cons in Hkey as [Hne Hkey].
      by rewrite (Hother key Hkey), Hst1, lookup_insert_ne.
Qed.

(** X8: whatever the store answers to the scans, when [loadMailboxes]
    returns normally every listed path is a key of the registry, bound to a
    mailbox of that path with a watermark of at least 1, and the keys that are
    not listed keep what they held. *)
Theorem loadMailboxes_registers_listing
    (paths : list string) (st : Imap) (tls : list (completion (list string))) :
  list_tape (world st) = Normal paths :: tls ->
  (ImapImpl.loadMailboxes st).1 = Normal tt ->
  (forall p, p ∈ paths ->
     exists w,
       mailboxes (ImapImpl.loadMailboxes st).2 !! p = Some {| path := p; lastUid := w |} /\
       1 <= w) /\
  (forall key, key ∉ paths ->
     mailboxes (ImapImpl.loadMailboxes st).2 !! key = mailboxes st !! key).
Proof.
  intros Hlist.
  destruct (ImapImpl.loadMailboxes st) as [r st'] eqn:Hrun. simpl. intros ->.
  unfold ImapImpl.loadMailboxes, client_list in Hrun.
  unfold bind at 1 in Hrun. unfold bind at 1 in Hrun.
  unfold act at 1, answer at 1 in Hrun. simpl in Hrun. rewrite Hlist in Hrun.
  unfold bind at 1 in Hrun.
  match type of Hrun with context [for_of paths ?body ?s] =>
    destruct (for_of paths body s) as [[[]|] st1] eqn:Hloop; [|discriminate]
  end.
  apply loadMailboxes_loop_registers in Hloop. simpl in Hloop.
  assert (mailboxes st' = mailboxes st1) as ->; [|exact Hloop].
  pose proof (keeps_bind (get mailboxes) (fun m => log (LogLoaded (size m)))
                (keeps_get _) (fun m => keeps_log _) st1) as Hkeep.
  by rewrite Hrun in Hkeep.
Qed.

Lemma loadMailboxes_registers_listing_witness :
  (forall p, p ∈ ["INBOX"; "Sent"] ->
     exists w,
       mailboxes (ImapImpl.loadMailboxes
                    (new_Imap Scenario.default_config
                       (Scenario.listing ["INBOX"; "Sent"] [[4; 2]; []]))).2 !! p
       = Some {| path := p; lastUid := w |} /\ 1 <= w) /\
  (forall key, key ∉ ["INBOX"; "Sent"] ->
     mailboxes (ImapImpl.loadMailboxes
                  (new_Imap Scenario.default_config
                     (Scenario.listing ["INBOX"; "Sent"] [[4; 2]; []]))).2 !! key
     = mailboxes (new_Imap Scenario.default_config
                    (Scenario.listing ["INBOX"; "Sent"] [[4; 2]; []])) !! key).
Proof.
  apply (loadMailboxes_registers_listing ["INBOX"; "Sent"]
           (new_Imap Scenario.default_config (Scenario.listing ["INBOX"; "Sent"] [[4; 2]; []]))
           []).
  - reflexivity.
  - reflexivity.
Defined.

(** X9: [emitLoadedMails] never throws; it emits one ['loadedMail'] event per
    buffered mail, in buffer order, and nothing else, and empties the buffer,
    so that calling it again at once changes nothing. *)
Theorem emitLoadedMails_drains_buffer (st : Imap) :
  (ImapImpl.emitLoadedMails st).1 = Normal tt /\
  performed st (ImapImpl.emitLoadedMails st).2 = EmitLoadedMail <$> loadedMails st /\
  loadedMails (ImapImpl.emitLoadedMails st).2 = [] /\
  mailboxes (ImapImpl.emitLoadedMails st).2 = mailboxes st /\
  ImapImpl.emitLoadedMails (ImapImpl.emitLoadedMails st).2
  = (Normal tt, (ImapImpl.emitLoadedMails st).2).
Proof.
  unfold ImapImpl.emitLoadedMails. unfold bind at 1 3 5 7 10. unfold get. simpl.
  unfold bind. rewrite (for_of_act EmitLoadedMail). simpl.
  repeat split.
  unfold performed. simpl. apply drop_app_length.
Qed.

(** ** What each method may do *)

Lemma adds_silent {A} (P : Action -> bool) (c : M A) :
  (forall st, config (c st).2 = config st /\ trace (c st).2 = trace st) -> adds P c.
Proof.
  intros Hc st. destruct (Hc st) as [Hcfg Htrace]. split; [exact Hcfg|].
  exists []. rewrite app_nil_r. by split.
Qed.

Lemma adds_ret {A} (P : Action -> bool) (a : A) : adds P (ret a).
Proof. by apply adds_silent. Qed.

Lemma adds_get {A} (P : Action -> bool) (f : Imap -> A) : adds P (get f).
Proof. by apply adds_silent. Qed.

Lemma adds_parser (P : Action -> bool) (source : string) :
  adds P (mailparser_simpleParser source).
Proof. by apply adds_silent. Qed.

Lemma adds_answer {A} (P : Action -> bool)
    (tape : Collaborators -> list (completion A)) rest :
  adds P (answer tape rest).
Proof. apply adds_silent. intros st. unfold answer. by destruct (tape (world st)). Qed.

Lemma adds_act (P : Action -> bool) (a : Action) :
  P a = true -> is_log a = false -> adds P (act a).
Proof.
  intros HP Hlog st. split; [reflexivity|]. exists [a]. split; [reflexivity|].
  constructor; [|constructor]. split; [exact HP|]. by rewrite Hlog.
Qed.

Lemma adds_log (P : Action -> bool) (message : LogMessage) :
  P (Log message) = true -> adds P (log message).
Proof.
  intros HP st. unfold log.
  destruct (logging (config st)) as [[|]|] eqn:Hlogging.
  - split; [reflexivity|]. exists [Log message]. split; [reflexivity|].
    constructor; [|constructor]. by split.
  - split; [reflexivity|]. exists []. simpl. by rewrite app_nil_r.
  - split; [reflexivity|]. exists []. simpl. by rewrite app_nil_r.
Qed.

Lemma adds_bind {A B} (P : Action -> bool) (c : M A) (k : A -> M B) :
  adds P c -> (forall a, adds P (k a)) -> adds P (bind c k).
Proof.
  intros Hc Hk st. destruct (Hc st) as (Hcfg & acts1 & Ht1 & HF1). unfold bind.
  destruct (c st) as [[a|] st1]; simpl in *.
  - destruct (Hk a st1) as (Hcfg2 & acts2 & Ht2 & HF2).
    split; [by rewrite Hcfg2|].
    exists (acts1 ++ acts2). rewrite Ht2, Ht1, <- app_assoc. split; [reflexivity|].
    apply Forall_app. split; [exact HF1|]. by rewrite Hcfg in HF2.
  - split; [exact Hcfg|]. by exists acts1.
Qed.

Lemma adds_try_catch {A} (P : Action -> bool) (c handler : M A) :
  adds P c -> adds P handler -> adds P (try_catch c handler).
Proof.
  intros Hc Hh st. destruct (Hc st) as (Hcfg & acts1 & Ht1 & HF1). unfold try_catch.
  destruct (c st) as [[a|] st1]; simpl in *.
  - split; [exact Hcfg|]. by exists acts1.
  - destruct (Hh st1) as (Hcfg2 & acts2 & Ht2 & HF2).
    split; [by rewrite Hcfg2|].
    exists (acts1 ++ acts2). rewrite Ht2, Ht1, <- app_assoc. split; [reflexivity|].
    apply Forall_app. split; [exact HF1|]. by rewrite Hcfg in HF2.
Qed.

Lemma adds_for_of {A} (P : Action -> bool) (xs : list A) (body : A -> M unit) :
  (forall x, adds P (body x)) -> adds P (for_of xs body).
Proof.
  intros Hbody. induction xs as [|x xs IH]; simpl.
  - apply adds_ret.
  - apply adds_bind; [apply Hbody|intros _; exact IH].
Qed.

Lemma adds_weaken {A} (P Q : Action -> bool) (c : M A) :
  (forall a, P a = true -> Q a = true) -> adds P c -> adds Q c.
Proof.
  intros HPQ Hc st. destruct (Hc st) as (Hcfg & acts & Ht & HF).
  split; [exact Hcfg|]. exists acts. split; [exact Ht|].
  eapply Forall_impl; [exact HF|]. intros a [HP Hlog]. split; [by apply HPQ|exact Hlog].
Qed.

Lemma adds_not_awaited {A} (P : Action -> bool) (c : M A) : adds P c -> adds P (not_awaited c).
Proof. intros Hc st. exact (Hc st). Qed.

Create HintDb actions.
#[local] Hint Resolve adds_ret adds_get adds_parser adds_answer : actions.
#[local] Hint Extern 1 (adds _ (act _)) => apply adds_act; reflexivity : actions.
#[local] Hint Extern 1 (adds _ (log _)) => apply adds_log; reflexivity : actions.
#[local] Hint Extern 2 (adds _ (bind _ _)) => apply adds_bind; [|intros ?] : actions.
#[local] Hint Extern 2 (adds _ (try_catch _ _)) => apply adds_try_catch : actions.
#[local] Hint Extern 2 (adds _ (for_of _ _)) => apply adds_for_of; intros ? : actions.
#[local] Hint Extern 3 (adds _ (match ?x with _ => _ end)) => destruct x : actions.

(** No action of a class that excludes [Q] is counted by [Q]. *)
Lemma count_excluded (cfg : ImapConfig) (P Q : Action -> bool) (acts : list Action) :
  (forall a, P a = true -> Q a = false) ->
  Forall (permitted cfg P) acts -> List.filter Q acts = [].
Proof.
  intros Hex HF. induction HF as [|a acts [HP _] _ IH]; [reflexivity|].
  simpl. by rewrite (Hex a HP).
Qed.

Lemma adds_search (mailboxPath : string) (range : SearchRange) :
  adds is_read (ImapImpl.search mailboxPath range).
Proof.
  unfold ImapImpl.search, getMailboxLock, client_fetch, release. auto 10 with actions.
Qed.

Lemma adds_getNewMail (P : Action -> bool) (mailboxPath : string) (msg : FetchMessageObject) :
  adds P (ImapImpl.getNewMail mailboxPath msg).
Proof. unfold ImapImpl.getNewMail. auto 10 with actions. Qed.

Lemma adds_getLastMails (mailbox : Mailbox) : adds is_read (ImapImpl.getLastMails mailbox).
Proof.
  unfold ImapImpl.getLastMails.
  apply adds_bind; [apply adds_search|]. intros msgs. generalize (@nil Mail).
  induction msgs as [|msg msgs IH]; intros mails; simpl; [apply adds_ret|].
  destruct (msg_uid msg >? lastUid mailbox); [|apply IH].
  apply adds_bind; [apply adds_getNewMail|intros mail; apply IH].
Qed.

Lemma adds_watchMailbox (mailboxToWatch : string) :
  adds poll_action (ImapImpl.watchMailbox mailboxToWatch).
Proof.
  unfold ImapImpl.watchMailbox.
  apply adds_try_catch; [|auto with actions].
  apply adds_bind; [apply adds_get|]. intros m.
  destruct (m !! mailboxToWatch) as [mailbox|]; [|apply adds_ret].
  apply adds_bind.
  { apply (adds_weaken is_read); [by intros []|apply adds_getLastMails]. }
  intros mails. destruct (last mails) as [newest|]; [|apply adds_ret].
  unfold ImapImpl.mailboxes_set.
  apply adds_bind; [by apply adds_silent|]. intros _.
  apply adds_bind; [by apply adds_silent|]. intros _.
  auto with actions.
Qed.

Lemma adds_getLastUid (mailboxPath : string) (loading : bool) :
  adds is_read (ImapImpl.getLastUid mailboxPath loading).
Proof.
  unfold ImapImpl.getLastUid.
  apply adds_bind; [apply adds_search|]. intros msgs. generalize 1.
  induction msgs as [|msg msgs IH]; intros d; simpl; [apply adds_ret|].
  apply adds_bind; [|intros _; apply IH].
  destruct loading; [|apply adds_ret].
  apply adds_bind; [apply adds_getNewMail|]. intros mail. by apply adds_silent.
Qed.

Lemma adds_loadMailboxes : adds load_action ImapImpl.loadMailboxes.
Proof.
  unfold ImapImpl.loadMailboxes, client_list.
  apply adds_bind; [auto with actions|]. intros listResponses.
  apply adds_bind; [|auto with actions].
  apply adds_for_of. intros list_path.
  apply adds_bind.
  { apply (adds_weaken is_read); [by intros []|apply adds_getLastUid]. }
  intros lastUid. by apply adds_silent.
Qed.

Lemma adds_connect : adds connect_action ImapImpl.connect.
Proof.
  unfold ImapImpl.connect, ImapImpl.restart, new_ImapFlow, client_connect, setTimeout.
  auto 10 with actions.
Qed.

Lemma adds_watchMailboxes : adds watch_action ImapImpl.watchMailboxes.
Proof.
  unfold ImapImpl.watchMailboxes, setInterval.
  apply adds_bind; [apply adds_get|]. intros cfg.
  destruct (mailboxesToWatch cfg) as [toWatch|]; [|apply adds_ret].
  apply adds_for_of. intros mailboxToWatch.
  apply adds_bind; [auto with actions|]. intros _.
  apply adds_bind; [|auto with actions].
  apply (adds_weaken poll_action); [by intros []|apply adds_watchMailbox].
Qed.

Lemma adds_run : adds run_action ImapImpl.run.
Proof.
  unfold ImapImpl.run, ImapImpl.watchErrors, client_on_error, setTimeout.
  apply adds_bind.
  { apply (adds_weaken connect_action); [by intros [| | | | | | | | | | | | |[]| |]|].
    apply adds_connect. }
  intros _. apply adds_bind; [auto with actions|].
  intros _. apply adds_bind.
  { apply (adds_weaken load_action); [by intros []|apply adds_loadMailboxes]. }
  intros _. apply adds_bind; [|auto with actions].
  apply (adds_weaken watch_action); [|apply adds_watchMailboxes].
  intros [| | | | | | | | | | | | | |[]|]; simpl; intros H; rewrite ?H, ?orb_true_r; done.
Qed.

Lemma adds_emitLoadedMails : adds flush_action ImapImpl.emitLoadedMails.
Proof.
  unfold ImapImpl.emitLoadedMails.
  apply adds_bind; [apply adds_get|]. intros loaded.
  apply adds_bind; [auto with actions|]. intros _. by apply adds_silent.
Qed.

Lemma adds_mutate (op : Mutation) (mailboxPath : string) (selector : UidsList) :
  adds mutation_action (mutate op mailboxPath selector).
Proof.
  destruct op; simpl;
    unfold ImapImpl.deleteMails, ImapImpl.seeMails, ImapImpl.unseeMails,
      getMailboxLock, messageDelete, messageFlagsAdd, messageFlagsRemove, release;
    auto 12 with actions.
Qed.

Lemma adds_query (q : MailQuery) (mailboxPath : string) :
  adds is_read (query q mailboxPath).
Proof.
  assert (forall msgs mails, adds is_read (ImapImpl.mails_of mailboxPath msgs mails)) as Hloop.
  { induction msgs as [|msg msgs IH]; intros mails; simpl; [apply adds_ret|].
    apply adds_bind; [apply adds_getNewMail|intros mail; apply IH]. }
  destruct q; simpl;
    unfold ImapImpl.getAllMails, ImapImpl.getSeenMails, ImapImpl.getUnseenMails;
    (apply adds_bind; [apply adds_search|intros msgs; apply Hloop]).
Qed.

Lemma adds_call (c : Call) : adds any_action (call c).
Proof.
  destruct c as [[| |mailboxToWatch]|op mailboxPath selector|q mailboxPath]; simpl.
  - apply (adds_weaken run_action); [done|apply adds_run].
  - apply (adds_weaken flush_action); [done|apply adds_emitLoadedMails].
  - apply (adds_weaken poll_action); [done|apply adds_watchMailbox].
  - apply adds_bind; [|intros ?; apply adds_ret].
    apply (adds_weaken mutation_action); [done|apply adds_mutate].
  - apply adds_bind; [|intros ?; apply adds_ret].
    apply (adds_weaken is_read); [done|apply adds_query].
Qed.

Lemma adds_quiet {A} (P : Action -> bool) (c : M A) (st : Imap) :
  adds P c ->
  logging (config st) <> Some true ->
  exists acts,
    trace (c st).2 = trace st ++ acts /\
    Forall (fun a => P a = true /\ is_log a = false) acts.
Proof.
  intros Hc Hoff. destruct (Hc st) as (_ & acts & Ht & HF).
  exists acts. split; [exact Ht|].
  eapply Forall_impl; [exact HF|]. intros a [HP Hlog]. split; [exact HP|].
  destruct (is_log a); [|reflexivity]. by destruct Hoff; apply Hlog.
Qed.

(** X10: a poll never throws and only reads: whatever the store answers, its
    actions are lock requests, fetches, releases, ['newMail'] events and log
    lines, so that it never deletes, never changes a flag, never sets a timer
    and never emits ['deletedMail'] or ['loadedMail']; it leaves the
    configuration alone. *)
Theorem poll_only_reads (mailboxToWatch : string) (st : Imap) :
  (ImapImpl.watchMailbox mailboxToWatch st).1 = Normal tt /\
  config (ImapImpl.watchMailbox mailboxToWatch st).2 = config st /\
  exists acts,
    trace (ImapImpl.watchMailbox mailboxToWatch st).2 = trace st ++ acts /\
    Forall (fun a => poll_action a = true) acts /\
    count_actions is_store_call acts = 0%nat /\
    count_actions is_interval acts = 0%nat /\
    removed acts = [].
Proof.
  split; [apply watchMailbox_returns|].
  destruct (adds_watchMailbox mailboxToWatch st) as (Hcfg & acts & Ht & HF).
  split; [exact Hcfg|]. exists acts. split; [exact Ht|].
  split; [eapply Forall_impl; [exact HF|]; by intros a [HP _]|].
  split; [|split].
  - unfold count_actions.
    rewrite (count_excluded (config st) poll_action is_store_call acts);
      [reflexivity| |exact HF].
    by intros [].
  - unfold count_actions.
    rewrite (count_excluded (config st) poll_action is_interval acts);
      [reflexivity| |exact HF].
    by intros [].
  - clear Ht. induction HF as [|a acts [HP _] _ IH]; [reflexivity|].
    destruct a; try discriminate HP; exact IH.
Qed.

Lemma after_calls_snoc (calls : list Call) (c : Call) (st : Imap) :
  after_calls (calls ++ [c]) st = (call c (after_calls calls st)).2.
Proof. unfold after_calls. by rewrite foldl_app. Qed.

(** X11: while logging is not switched on, no timer task, mutation or query
    writes a log line, in any number and order; and none of them changes the
    configuration. *)
Theorem logging_off_writes_no_log (calls : list Call) (st : Imap) :
  logging (config st) <> Some true ->
  config (after_calls calls st) = config st /\
  exists acts,
    trace (after_calls calls st) = trace st ++ acts /\
    count_actions is_log acts = 0%nat.
Proof.
  intros Hoff. induction calls as [|c calls IH] using rev_ind.
  - split; [reflexivity|]. exists []. by rewrite app_nil_r.
  - rewrite after_calls_snoc. destruct IH as (Hcfg & acts & Ht & Hcount).
    destruct (adds_call c (after_calls calls st)) as (Hcfg' & acts' & Ht' & HF).
    split; [by rewrite Hcfg'|].
    exists (acts ++ acts'). rewrite Ht', Ht, <- app_assoc. split; [reflexivity|].
    unfold count_actions in *. rewrite List.filter_app, length_app, Hcount. simpl.
    rewrite Hcfg in HF. clear -HF Hoff.
    induction HF as [|a l [_ Hlog] _ IHl]; [reflexivity|].
    simpl. destruct (is_log a); [by destruct Hoff; apply Hlog|exact IHl].
Qed.

Lemma logging_off_witness :
  config (after_calls
            [Fire TaskRun; Fire (TaskWatchMailbox "INBOX"); Mutate Delete "INBOX" (FromUids [3])]
            (new_Imap Scenario.default_config Scenario.refused))
  = config (new_Imap Scenario.default_config Scenario.refused) /\
  exists acts,
    trace (after_calls
             [Fire TaskRun; Fire (TaskWatchMailbox "INBOX"); Mutate Delete "INBOX" (FromUids [3])]
             (new_Imap Scenario.default_config Scenario.refused))
    = trace (new_Imap Scenario.default_config Scenario.refused) ++ acts /\
    count_actions is_log acts = 0%nat.
Proof.
  apply (logging_off_writes_no_log
           [Fire TaskRun; Fire (TaskWatchMailbox "INBOX"); Mutate Delete "INBOX" (FromUids [3])]
           (new_Imap Scenario.default_config Scenario.refused)).
  simpl. discriminate.
Defined.

(** ** Invariants of the registry *)

Lemma keeps_registry_inv {A} (I : gmap string Mailbox -> Prop) (c : M A) :
  keeps_registry c -> keeps_inv I c.
Proof. intros Hc st HI. by rewrite Hc. Qed.

Lemma keeps_inv_bind {A B} (I : gmap string Mailbox -> Prop) (c : M A) (k : A -> M B) :
  keeps_inv I c -> (forall a, keeps_inv I (k a)) -> keeps_inv I (bind c k).
Proof.
  intros Hc Hk st HI. unfold bind. specialize (Hc st HI).
  destruct (c st) as [[a|] st1]; simpl in *; [by apply Hk|done].
Qed.

Lemma keeps_inv_for_of {A} (I : gmap string Mailbox -> Prop) (xs : list A)
    (body : A -> M unit) :
  (forall x, keeps_inv I (body x)) -> keeps_inv I (for_of xs body).
Proof.
  intros Hbody. induction xs as [|x xs IH]; simpl.
  - apply keeps_registry_inv, keeps_ret.
  - apply keeps_inv_bind; [apply Hbody|intros _; exact IH].
Qed.

Lemma registry_ok_insert (m : gmap string Mailbox) (p : string) (w : Z) :
  registry_ok m -> 1 <= w -> registry_ok (<[p := {| path := p; lastUid := w |}]> m).
Proof.
  intros Hok Hw key mailbox. rewrite lookup_insert. case_decide as Hkey.
  - intros [= <-]. by split.
  - apply Hok.
Qed.

Lemma scan_keeps_ok (list_path : string) :
  keeps_inv registry_ok
    (bind (ImapImpl.getLastUid list_path true) (fun lastUid =>
       ImapImpl.mailboxes_set list_path {| path := list_path; lastUid := lastUid |})).
Proof.
  intros st Hok. unfold bind.
  pose proof (keeps_getLastUid list_path true st) as Hkeep.
  destruct (ImapImpl.getLastUid list_path true st) as [[w|] st1] eqn:Hscan; simpl in *.
  - rewrite Hkeep. apply registry_ok_insert; [exact Hok|]. by apply getLastUid_ge in Hscan.
  - by rewrite Hkeep.
Qed.

Lemma watchMailbox_keeps_ok (mailboxToWatch : string) :
  keeps_inv registry_ok (ImapImpl.watchMailbox mailboxToWatch).
Proof.
  intros st Hok.
  destruct (watchMailbox_registry mailboxToWatch st)
    as [->|(mailbox & u & Hmailbox & Hu & ->)]; [exact Hok|].
  destruct (Hok _ _ Hmailbox) as [Hpath Hge].
  rewrite Hpath, insert_insert_eq. apply registry_ok_insert; [exact Hok|lia].
Qed.

Lemma keeps_connect : keeps_registry ImapImpl.connect.
Proof.
  unfold ImapImpl.connect, ImapImpl.restart, new_ImapFlow, client_connect, setTimeout.
  auto 10 with frame.
Qed.

Lemma run_keeps_ok : keeps_inv registry_ok ImapImpl.run.
Proof.
  unfold ImapImpl.run.
  apply keeps_inv_bind; [apply keeps_registry_inv, keeps_connect|].
  intros _. apply keeps_inv_bind; [apply keeps_registry_inv, keeps_act|].
  intros _. apply keeps_inv_bind.
  { unfold ImapImpl.loadMailboxes.
    apply keeps_inv_bind.
    { apply keeps_registry_inv. unfold client_list. auto with frame. }
    intros listResponses. apply keeps_inv_bind.
    - apply keeps_inv_for_of. intros list_path. apply scan_keeps_ok.
    - intros _. apply keeps_registry_inv. auto with frame. }
  intros _. apply keeps_inv_bind; [|intros _; apply keeps_registry_inv, keeps_act].
  unfold ImapImpl.watchMailboxes.
  apply keeps_inv_bind; [apply keeps_registry_inv, keeps_get|].
  intros cfg. destruct (mailboxesToWatch cfg) as [toWatch|];
    [|apply keeps_registry_inv, keeps_ret].
  apply keeps_inv_for_of. intros mailboxToWatch.
  apply keeps_inv_bind; [apply keeps_registry_inv, keeps_log|].
  intros _. apply keeps_inv_bind; [apply watchMailbox_keeps_ok|].
  intros _. apply keeps_registry_inv, keeps_act.
Qed.

Lemma keeps_emitLoadedMails : keeps_registry ImapImpl.emitLoadedMails.
Proof.
  unfold ImapImpl.emitLoadedMails.
  apply keeps_bind; [apply keeps_get|]. intros loaded.
  apply keeps_bind; [apply keeps_for_of; intros mail; apply keeps_act|].
  intros _ st. reflexivity.
Qed.

(** The mutations never touch the registry. *)
Lemma keeps_mutate (op : Mutation) (mailboxPath : string) (selector : UidsList) :
  keeps_registry (mutate op mailboxPath selector).
Proof.
  destruct op; simpl;
    unfold ImapImpl.deleteMails, ImapImpl.seeMails, ImapImpl.unseeMails,
      getMailboxLock, messageDelete, messageFlagsAdd, messageFlagsRemove, release.
  - apply keeps_bind; [auto with frame|]. intros [lock|]; [|apply keeps_ret].
    apply keeps_bind; [auto with frame|]. intros result.
    apply keeps_bind; [|auto with frame].
    destruct result; [|apply keeps_ret].
    apply keeps_for_of. intros u. apply keeps_act.
  - auto 12 with frame.
  - apply keeps_bind; [auto with frame|]. intros [lock|]; [|apply keeps_ret].
    destruct (uidsAndMailsToUids selector); [apply keeps_ret|]. auto 12 with frame.
Qed.

(** The queries never touch the registry. *)
Lemma keeps_query (q : MailQuery) (mailboxPath : string) :
  keeps_registry (query q mailboxPath).
Proof.
  assert (forall msgs mails, keeps_registry (ImapImpl.mails_of mailboxPath msgs mails))
    as Hloop.
  { induction msgs as [|msg msgs IH]; intros mails; simpl; [apply keeps_ret|].
    apply keeps_bind; [apply keeps_getNewMail|intros mail; apply IH]. }
  destruct q; simpl;
    unfold ImapImpl.getAllMails, ImapImpl.getSeenMails, ImapImpl.getUnseenMails;
    (apply keeps_bind; [apply keeps_search|intros msgs; apply Hloop]).
Qed.

Lemma call_keeps_ok (c : Call) : keeps_inv registry_ok (call c).
Proof.
  destruct c as [[| |mailboxToWatch]|op mailboxPath selector|q mailboxPath]; simpl.
  - apply run_keeps_ok.
  - apply keeps_registry_inv, keeps_emitLoadedMails.
  - apply watchMailbox_keeps_ok.
  - apply keeps_registry_inv, keeps_bind; [apply keeps_mutate|intros ?; apply keeps_ret].
  - apply keeps_registry_inv, keeps_bind; [apply keeps_query|intros ?; apply keeps_ret].
Qed.

(** X12: on an [Imap] object that starts with an empty registry, after any
    sequence of timer tasks, mutations and queries, in any order and whatever
    the collaborators answer, every key of the registry holds a mailbox whose
    path is that key and whose watermark is at least 1; the configuration is
    the one given to the constructor. *)
Theorem registry_stays_keyed_by_path
    (cfg : ImapConfig) (w : Collaborators) (calls : list Call) :
  registry_ok (mailboxes (after_calls calls (new_Imap cfg w))) /\
  config (after_calls calls (new_Imap cfg w)) = cfg.
Proof.
  induction calls as [|c calls [IHok IHcfg]] using rev_ind.
  - split; [|reflexivity]. intros key mailbox. simpl. by rewrite lookup_empty.
  - rewrite after_calls_snoc. split.
    + by apply call_keeps_ok.
    + destruct (adds_call c (after_calls calls (new_Imap cfg w))) as [Hcfg _].
      by rewrite Hcfg.
Qed.

(** X13: a mutation or a query never changes the registry: the watermarks
    are moved by the initial scan and by the polls only. *)
Theorem mutations_and_queries_keep_registry (calls : list Call) (st : Imap) :
  Forall (fun c => match c with Fire _ => False | _ => True end) calls ->
  mailboxes (after_calls calls st) = mailboxes st.
Proof.
  induction calls as [|c calls IH] using rev_ind; intros Hcalls; [reflexivity|].
  apply Forall_app in Hcalls as [Hcalls Hc]. inversion_clear Hc as [|? ? Hc' _].
  rewrite after_calls_snoc, <- (IH Hcalls).
  destruct c as [task|op mailboxPath selector|q mailboxPath]; [destruct Hc'| |]; simpl.
  - apply (keeps_bind (mutate op mailboxPath selector)); [apply keeps_mutate|].
    intros ?. apply keeps_ret.
  - apply (keeps_bind (query q mailboxPath)); [apply keeps_query|].
    intros ?. apply keeps_ret.
Qed.

Lemma mutations_and_queries_witness :
  mailboxes (after_calls [Mutate Delete "INBOX" (FromUids [10; 11]); Query AllMails "INBOX"]
               (Scenario.tracking 4 (Scenario.store 2 [[10; 12]] [Normal true])))
  = mailboxes (Scenario.tracking 4 (Scenario.store 2 [[10; 12]] [Normal true])).
Proof.
  apply (mutations_and_queries_keep_registry
           [Mutate Delete "INBOX" (FromUids [10; 11]); Query AllMails "INBOX"]
           (Scenario.tracking 4 (Scenario.store 2 [[10; 12]] [Normal true]))).
  repeat constructor.
Defined.

(** ** Timers set at startup *)

Lemma count_actions_app (P : Action -> bool) (xs ys : list Action) :
  count_actions P (xs ++ ys) = (count_actions P xs + count_actions P ys)%nat.
Proof. unfold count_actions. by rewrite List.filter_app, length_app. Qed.

Lemma count_actions_excluded (cfg : ImapConfig) (P Q : Action -> bool) (acts : list Action) :
  (forall a, P a = true -> Q a = false) ->
  Forall (permitted cfg P) acts -> count_actions Q acts = 0%nat.
Proof.
  intros Hex HF. unfold count_actions. by rewrite (count_excluded cfg P Q acts Hex HF).
Qed.

(** Counting the actions of class [Q] of [c ;; k], when [c] performs none. *)
Lemma count_bind {A B} (P Q : Action -> bool) (f : completion B -> nat)
    (c : M A) (k : A -> M B) :
  adds P c ->
  (forall a, P a = true -> Q a = false) ->
  f Throw = 0%nat ->
  (forall a st1, exists acts,
      trace (k a st1).2 = trace st1 ++ acts /\ count_actions Q acts = f (k a st1).1) ->
  forall st, exists acts,
    trace (bind c k st).2 = trace st ++ acts /\ count_actions Q acts = f (bind c k st).1.
Proof.
  intros Hc Hex Hf Hk st. destruct (Hc st) as (_ & acts1 & Ht1 & HF1).
  pose proof (count_actions_excluded _ P Q acts1 Hex HF1) as Hzero.
  unfold bind. destruct (c st) as [[a|] st1]; simpl in *.
  - destruct (Hk a st1) as (acts2 & Ht2 & Hcount).
    exists (acts1 ++ acts2). rewrite Ht2, Ht1, <- app_assoc. split; [reflexivity|].
    by rewrite count_actions_app, Hzero.
  - exists acts1. by rewrite Hf.
Qed.

(** Inclusion of one class of actions in another, by cases. *)
Ltac class_incl :=
  let a := fresh "a" in
  intros a; destruct a; simpl;
  try match goal with t : Task |- _ => destruct t; simpl end;
  intros; (reflexivity || discriminate || done).

(** [connect] always returns normally; it sets the restart timer when the
    connection attempt fails, and only then. *)
Lemma connect_restarts (st : Imap) :
  exists st1 acts,
    ImapImpl.connect st = (Normal tt, st1) /\
    trace st1 = trace st ++ acts /\
    count_actions is_restart acts
    = match connect_tape (world st) with Normal _ :: _ => 0%nat | _ => 1%nat end.
Proof.
  open_state st.
  unfold ImapImpl.connect, ImapImpl.restart, log, new_ImapFlow, client_connect, setTimeout.
  run_monad.
  destruct cfg as [user [[|]|] ri mw mi]; simpl;
    destruct connect_tape0 as [|[[]|] tl]; simpl;
    (eexists _, _; split; [reflexivity|]; simpl; rewrite <- ?app_assoc; simpl;
     split; [reflexivity|reflexivity]).
Qed.

(** X14: [run] sets the restart timer exactly when the connection attempt
    fails (once), and sets the timer of [emitLoadedMails] exactly when it
    returns normally (once). *)
Theorem run_timers (st : Imap) :
  count_actions is_restart (performed st (ImapImpl.run st).2)
  = match connect_tape (world st) with Normal _ :: _ => 0%nat | _ => 1%nat end /\
  count_actions is_flush_timer (performed st (ImapImpl.run st).2)
  = match (ImapImpl.run st).1 with Normal _ => 1%nat | Throw => 0%nat end.
Proof.
  split.
  - destruct (connect_restarts st) as (st1 & acts1 & Hconnect & Ht1 & Hcount).
    unfold ImapImpl.run. unfold bind at 1. rewrite Hconnect.
    assert (adds (fun a => negb (is_restart a))
              (bind ImapImpl.watchErrors (fun _ =>
               bind ImapImpl.loadMailboxes (fun _ =>
               bind ImapImpl.watchMailboxes (fun _ =>
               setTimeout TaskEmitLoadedMails (inject_Z 1000)))))) as Hrest.
    { unfold ImapImpl.watchErrors, client_on_error, setTimeout.
      apply adds_bind; [auto with actions|]. intros _. apply adds_bind.
      { apply (adds_weaken load_action); [class_incl|apply adds_loadMailboxes]. }
      intros _. apply adds_bind; [|auto with actions].
      apply (adds_weaken watch_action); [class_incl|apply adds_watchMailboxes]. }
    destruct (Hrest st1) as (_ & acts2 & Ht2 & HF2).
    rewrite (performed_app st _ (acts1 ++ acts2)); [|by rewrite Ht2, Ht1, <- app_assoc].
    rewrite count_actions_app, Hcount.
    rewrite (count_actions_excluded (config st1) (fun a => negb (is_restart a))
               is_restart acts2); [by rewrite Nat.add_0_r| |exact HF2].
    intros a. by destruct (is_restart a).
  - assert (exists acts,
              trace (ImapImpl.run st).2 = trace st ++ acts /\
              count_actions is_flush_timer acts
              = match (ImapImpl.run st).1 with Normal _ => 1%nat | Throw => 0%nat end)
      as (acts & Ht & Hcount).
    { unfold ImapImpl.run.
      pose (f := fun r : completion unit =>
                   match r with Normal _ => 1%nat | Throw => 0%nat end).
      apply (count_bind connect_action is_flush_timer f);
        [apply adds_connect|class_incl|reflexivity|].
      intros _ st1.
      apply (count_bind (fun a => negb (is_flush_timer a)) is_flush_timer f);
        [|by intros a; destruct (is_flush_timer a)|reflexivity|].
      { unfold ImapImpl.watchErrors, client_on_error. auto with actions. }
      intros _ st2.
      apply (count_bind load_action is_flush_timer f);
        [apply adds_loadMailboxes|class_incl|reflexivity|].
      intros _ st3.
      apply (count_bind watch_action is_flush_timer f);
        [apply adds_watchMailboxes|class_incl|reflexivity|].
      intros _ st4. exists [SetTimeout TaskEmitLoadedMails (inject_Z 1000)].
      by split. }
    by rewrite (performed_app _ _ _ Ht).
Qed.

Lemma log_returns (message : LogMessage) (st : Imap) : (log message st).1 = Normal tt.
Proof. unfold log. by destruct (logging (config st)) as [[|]|]. Qed.

(** The loop of [watchMailboxes]. *)
Lemma watchMailboxes_loop (toWatch : list string) (cfg : ImapConfig) (st : Imap) :
  let interval := or_default (mailboxesWatchInterval cfg) DEFAULT_MAILBOXES_INTERVAL in
  let body := fun mailboxToWatch =>
    bind (log (LogWatching mailboxToWatch (inject_Z interval / inject_Z 1000)%Q)) (fun _ =>
    bind (ImapImpl.watchMailbox mailboxToWatch) (fun _ =>
    setInterval (TaskWatchMailbox mailboxToWatch) (inject_Z interval))) in
  (for_of toWatch body st).1 = Normal tt /\
  exists acts,
    trace (for_of toWatch body st).2 = trace st ++ acts /\
    List.filter is_interval acts
    = (fun p => SetInterval (TaskWatchMailbox p) (inject_Z interval)) <$> toWatch.
Proof.
  intros interval body. revert st.
  induction toWatch as [|p toWatch IH]; intros st.
  - split; [reflexivity|]. exists []. simpl. by rewrite app_nil_r.
  - assert ((body p st).1 = Normal tt /\
            exists acts, trace (body p st).2 = trace st ++ acts /\
              List.filter is_interval acts
              = [SetInterval (TaskWatchMailbox p) (inject_Z interval)])
      as (Hret & acts1 & Ht1 & Hf1).
    { unfold body, bind, setInterval.
      pose proof (log_returns (LogWatching p (inject_Z interval / inject_Z 1000)%Q) st) as Hlog.
      destruct (adds_log is_log (LogWatching p (inject_Z interval / inject_Z 1000)%Q)
                  eq_refl st) as (_ & la & Hta & HFa).
      destruct (log _ st) as [r sa]. simpl in Hlog, Hta. subst r.
      pose proof (watchMailbox_returns p sa) as Hpoll.
      destruct (adds_watchMailbox p sa) as (_ & lb & Htb & HFb).
      destruct (ImapImpl.watchMailbox p sa) as [r sb]. simpl in Hpoll, Htb. subst r.
      split; [reflexivity|].
      exists (la ++ lb ++ [SetInterval (TaskWatchMailbox p) (inject_Z interval)]).
      simpl. rewrite Htb, Hta, <- !app_assoc. split; [reflexivity|].
      rewrite !List.filter_app.
      rewrite (count_excluded (config st) is_log is_interval la); [|by intros []|exact HFa].
      by rewrite (count_excluded (config sa) poll_action is_interval lb);
        [|by intros []|exact HFb]. }
    cbn [for_of]. unfold bind.
    destruct (body p st) as [r st1]. simpl in Hret, Ht1. subst r.
    destruct (IH st1) as (Hret2 & acts2 & Ht2 & Hf2).
    split; [exact Hret2|].
    exists (acts1 ++ acts2). rewrite Ht2, Ht1, <- app_assoc. split; [reflexivity|].
    by rewrite List.filter_app, Hf1, Hf2.
Qed.

(** X15: [watchMailboxes] never throws.  It sets one interval per path of
    [mailboxesToWatch], in the order of the list and after the first poll of
    that path, with the configured interval (60 000 ms when it is undefined or
    0); without [mailboxesToWatch] it does nothing. *)
Theorem watchMailboxes_sets_one_interval_per_path (st : Imap) :
  (ImapImpl.watchMailboxes st).1 = Normal tt /\
  List.filter is_interval (performed st (ImapImpl.watchMailboxes st).2)
  = (fun p => SetInterval (TaskWatchMailbox p)
                (inject_Z (or_default (mailboxesWatchInterval (config st))
                                      DEFAULT_MAILBOXES_INTERVAL)))
    <$> default [] (mailboxesToWatch (config st)) /\
  match mailboxesToWatch (config st) with
  | Some _ => True
  | None => ImapImpl.watchMailboxes st = (Normal tt, st)
  end.
Proof.
  assert (ImapImpl.watchMailboxes st
          = match mailboxesToWatch (config st) with
            | Some toWatch =>
                for_of toWatch (fun mailboxToWatch =>
                  let interval :=
                    or_default (mailboxesWatchInterval (config st))
                      DEFAULT_MAILBOXES_INTERVAL in
                  bind (log (LogWatching mailboxToWatch
                               (inject_Z interval / inject_Z 1000)%Q)) (fun _ =>
                  bind (ImapImpl.watchMailbox mailboxToWatch) (fun _ =>
                  setInterval (TaskWatchMailbox mailboxToWatch) (inject_Z interval)))) st
            | None => (Normal tt, st)
            end) as ->.
  { unfold ImapImpl.watchMailboxes, bind at 1, get.
    by destruct (mailboxesToWatch (config st)). }
  destruct (mailboxesToWatch (config st)) as [toWatch|]; simpl.
  - destruct (watchMailboxes_loop toWatch (config st) st) as (Hret & acts & Ht & Hf).
    cbn zeta in Hret, Ht. split; [exact Hret|]. split; [|exact I].
    by rewrite (performed_app _ _ _ Ht).
  - unfold performed. rewrite drop_all. by repeat split.
Qed.

(** ** What a mutation may do *)

Lemma count_emits (P : Action -> bool) (uids : list Z) :
  (forall u, P (EmitDeletedMail u) = false) ->
  count_actions P (EmitDeletedMail <$> uids) = 0%nat.
Proof.
  intros HP. unfold count_actions.
  induction uids as [|u uids IH]; [reflexivity|]. rewrite fmap_cons. simpl. by rewrite HP.
Qed.

(** X16: whatever the store answers, a mutation asks for the lock once, issues
    at most one store operation and releases at most once; its actions are
    lock requests, releases, its store call and ['deletedMail'] events only
    (no fetch, no timer, no log line); [seeMails] and [unseeMails] emit no
    event; the buffer of loaded mails is left alone. *)
Theorem mutation_frame
    (op : Mutation) (p : string) (selector : UidsList) (st : Imap) :
  loadedMails (mutate op p selector st).2 = loadedMails st /\
  exists acts,
    trace (mutate op p selector st).2 = trace st ++ acts /\
    Forall (fun a => mutation_action a = true) acts /\
    count_actions is_lock_request acts = 1%nat /\
    (count_actions is_store_call acts <= 1)%nat /\
    (count_releases acts <= 1)%nat /\
    match op with
    | Delete => True
    | MarkSeen | MarkUnseen => count_actions is_emit acts = 0%nat
    end.
Proof.
  assert (forall uids : list Z, Forall (fun a => mutation_action a = true)
                                  (EmitDeletedMail <$> uids)) as Hemits.
  { induction uids as [|u uids IH]; [constructor|]. rewrite fmap_cons. by constructor. }
  open_state st.
  destruct op; simpl;
    unfold ImapImpl.deleteMails, ImapImpl.seeMails, ImapImpl.unseeMails,
      getMailboxLock, messageDelete, messageFlagsAdd, messageFlagsRemove, release;
    run_monad.
  - destruct lock_tape0 as [|[[|]|] tl]; simpl;
      try (split; [reflexivity|]; eexists; split; [reflexivity|];
           repeat split; try done; repeat constructor; fail).
    destruct delete_tape0 as [|[[|]|] ts]; simpl;
      try (split; [reflexivity|]; eexists; split; [trace_eq|];
           repeat split; try done; repeat constructor; auto; fail).
    rewrite (for_of_act EmitDeletedMail). simpl.
    split; [reflexivity|].
    exists ([GetMailboxLock p; MessageDelete (join_uids (uidsAndMailsToUids selector))]
            ++ (EmitDeletedMail <$> uidsAndMailsToUids selector) ++ [Release p]).
    split; [trace_eq|].
    split; [repeat constructor; apply Forall_app; split; [apply Hemits|by repeat constructor]|].
    unfold count_releases.
    change (fun acts => length (List.filter is_release acts)) with (count_actions is_release).
    fold (count_actions is_release
            ([GetMailboxLock p; MessageDelete (join_uids (uidsAndMailsToUids selector))]
             ++ (EmitDeletedMail <$> uidsAndMailsToUids selector) ++ [Release p])).
    rewrite !count_actions_app, !count_emits by done. by repeat split.
  - destruct lock_tape0 as [|[[|]|] tl]; simpl;
      try (split; [reflexivity|]; eexists; split; [reflexivity|];
           repeat split; try done; repeat constructor; fail).
    destruct flags_tape0 as [|[result|] ts]; simpl;
      (split; [reflexivity|]; eexists; split; [trace_eq|];
       repeat split; try done; repeat constructor; auto).
  - destruct lock_tape0 as [|[[|]|] tl]; simpl;
      try (split; [reflexivity|]; eexists; split; [reflexivity|];
           repeat split; try done; repeat constructor; fail).
    destruct (uidsAndMailsToUids selector) as [|u us]; simpl;
      [split; [reflexivity|]; eexists; split; [reflexivity|];
       repeat split; try done; repeat constructor|].
    destruct flags_tape0 as [|[result|] ts]; simpl;
      (split; [reflexivity|]; eexists; split; [trace_eq|];
       repeat split; try done; repeat constructor; auto).
Qed.

(** ** The methods of [Mail] *)

(** X17: [mail.delete()] never throws to its caller, whatever the store
    answers.  With the lock granted it asks the store to delete exactly the
    identifier of the mail, and a ['deletedMail'] event for that identifier is
    emitted exactly when the store answers [true]. *)
Theorem Mail_delete_forwards
    (mail : Mail) (st : Imap) (tl : list (completion bool)) (r : completion bool)
    (ts : list (completion bool)) :
  lock_tape (world st) = Normal true :: tl ->
  delete_tape (world st) = r :: ts ->
  (Mail_delete mail st).1 = Normal tt /\
  List.filter is_store_call (performed st (Mail_delete mail st).2)
  = [MessageDelete (JsString.string_of_Z (uid mail))] /\
  removed (performed st (Mail_delete mail st).2)
  = match r with Normal true => [uid mail] | _ => [] end.
Proof.
  intros Hlock Hstore. split; [reflexivity|].
  destruct (deleteMails_granted (mailboxPath mail) (FromUids [uid mail]) st tl r ts
              Hlock Hstore) as (st' & Hrun & Htrace).
  unfold Mail_delete, not_awaited. simpl. rewrite Hrun. simpl.
  rewrite (performed_app _ _ _ Htrace).
  assert (uidsAndMailsToUids (FromUids [uid mail]) = [uid mail]) as -> by reflexivity.
  by destruct r as [[|]|].
Qed.

Lemma Mail_delete_forwards_witness :
  (Mail_delete (MailImpl.new_Mail "INBOX" (Scenario.message 7)
                  {| pm_subject := None; pm_from := None; pm_text := None |})
     (Scenario.inbox_answering Throw)).1 = Normal tt /\
  List.filter is_store_call
    (performed (Scenario.inbox_answering Throw)
       (Mail_delete (MailImpl.new_Mail "INBOX" (Scenario.message 7)
                       {| pm_subject := None; pm_from := None; pm_text := None |})
          (Scenario.inbox_answering Throw)).2)
  = [MessageDelete (JsString.string_of_Z 7)] /\
  removed
    (performed (Scenario.inbox_answering Throw)
       (Mail_delete (MailImpl.new_Mail "INBOX" (Scenario.message 7)
                       {| pm_subject := None; pm_from := None; pm_text := None |})
          (Scenario.inbox_answering Throw)).2)
  = [].
Proof.
  apply (Mail_delete_forwards
           (MailImpl.new_Mail "INBOX" (Scenario.message 7)
              {| pm_subject := None; pm_from := None; pm_text := None |})
           (Scenario.inbox_answering Throw) [] Throw []).
  - reflexivity.
  - reflexivity.
Defined.

(** ** The ways a poll comes back empty-handed *)

(** X18: when the request for the lock throws, or the lock is granted and
    the fetch throws, the poll still returns normally: nothing is emitted, the
    registry is as before, the lock is not released, and one log line is
    written if logging is on. *)
Theorem poll_swallows_store_errors
    (mailboxToWatch : string) (st : Imap) (mailbox : Mailbox)
    (tl : list (completion bool)) (tf : list (completion (list FetchMessageObject))) :
  mailboxes st !! mailboxToWatch = Some mailbox ->
  lock_tape (world st) = Throw :: tl \/
  (lock_tape (world st) = Normal true :: tl /\ fetch_tape (world st) = Throw :: tf) ->
  (ImapImpl.watchMailbox mailboxToWatch st).1 = Normal tt /\
  mailboxes (ImapImpl.watchMailbox mailboxToWatch st).2 = mailboxes st /\
  arrived (performed st (ImapImpl.watchMailbox mailboxToWatch st).2) = [] /\
  count_releases (performed st (ImapImpl.watchMailbox mailboxToWatch st).2) = 0%nat /\
  count_actions is_log (performed st (ImapImpl.watchMailbox mailboxToWatch st).2)
  = match logging (config st) with Some true => 1%nat | _ => 0%nat end.
Proof.
  intros Hmailbox Hfail. open_state st.
  unfold ImapImpl.watchMailbox, ImapImpl.getLastMails, ImapImpl.search,
    getMailboxLock, client_fetch, release, log.
  run_monad. rewrite Hmailbox. simpl.
  destruct Hfail as [->|[-> ->]]; simpl;
    destruct cfg as [user [[|]|] ri mw mi]; simpl;
    unfold performed, count_releases, count_actions; simpl;
    rewrite <- ?app_assoc, drop_app_length; by repeat split.
Qed.

Lemma poll_swallows_store_errors_witness :
  (ImapImpl.watchMailbox "INBOX" Scenario.inbox_fetch_fails).1 = Normal tt /\
  mailboxes (ImapImpl.watchMailbox "INBOX" Scenario.inbox_fetch_fails).2
  = mailboxes Scenario.inbox_fetch_fails /\
  arrived (performed Scenario.inbox_fetch_fails
             (ImapImpl.watchMailbox "INBOX" Scenario.inbox_fetch_fails).2) = [] /\
  count_releases (performed Scenario.inbox_fetch_fails
                    (ImapImpl.watchMailbox "INBOX" Scenario.inbox_fetch_fails).2) = 0%nat /\
  count_actions is_log (performed Scenario.inbox_fetch_fails
                          (ImapImpl.watchMailbox "INBOX" Scenario.inbox_fetch_fails).2)
  = match logging (config Scenario.inbox_fetch_fails) with
    | Some true => 1%nat
    | _ => 0%nat
    end.
Proof.
  apply (poll_swallows_store_errors "INBOX" Scenario.inbox_fetch_fails
           {| path := "INBOX"; lastUid := 1 |} [] []).
  - reflexivity.
  - right. split; reflexivity.
Defined.

(** X19: when the lock is not obtained, the poll is silent: the request for
    the lock is its only action, nothing is emitted, no log line is written and
    the registry is as before. *)
Theorem poll_lock_unavailable
    (mailboxToWatch : string) (st : Imap) (mailbox : Mailbox) (tl : list (completion bool)) :
  mailboxes st !! mailboxToWatch = Some mailbox ->
  lock_tape (world st) = Normal false :: tl ->
  (ImapImpl.watchMailbox mailboxToWatch st).1 = Normal tt /\
  mailboxes (ImapImpl.watchMailbox mailboxToWatch st).2 = mailboxes st /\
  performed st (ImapImpl.watchMailbox mailboxToWatch st).2 = [GetMailboxLock (path mailbox)].
Proof.
  intros Hmailbox Hlock. open_state st.
  unfold ImapImpl.watchMailbox, ImapImpl.getLastMails, ImapImpl.search, getMailboxLock.
  run_monad. rewrite Hmailbox. simpl.
  unfold performed. simpl. rewrite drop_app_length. by repeat split.
Qed.

Lemma poll_lock_unavailable_witness :
  (ImapImpl.watchMailbox "INBOX" Scenario.inbox_locked).1 = Normal tt /\
  mailboxes (ImapImpl.watchMailbox "INBOX" Scenario.inbox_locked).2
  = mailboxes Scenario.inbox_locked /\
  performed Scenario.inbox_locked (ImapImpl.watchMailbox "INBOX" Scenario.inbox_locked).2
  = [GetMailboxLock (path {| path := "INBOX"; lastUid := 1 |})].
Proof.
  apply (poll_lock_unavailable "INBOX" Scenario.inbox_locked
           {| path := "INBOX"; lastUid := 1 |} []).
  - reflexivity.
  - reflexivity.
Defined.

Lemma getNewMail_state (p : string) (msg : FetchMessageObject) (st : Imap) :
  (ImapImpl.getNewMail p msg st).2 = st.
Proof.
  unfold ImapImpl.getNewMail, mailparser_simpleParser. run_monad.
  destruct (simpleParser (world st) (msg_headers msg)); [|reflexivity].
  destruct (msg_bodyPart msg) as [bodyPart|]; [|reflexivity].
  by destruct (simpleParser (world st) bodyPart).
Qed.

Lemma getNewMail_headers_fail (p : string) (msg : FetchMessageObject) (st : Imap) :
  simpleParser (world st) (msg_headers msg) = Throw ->
  ImapImpl.getNewMail p msg st = (Throw, st).
Proof.
  intros Hfail. unfold ImapImpl.getNewMail, mailparser_simpleParser. run_monad.
  by rewrite Hfail.
Qed.

(** One new message that does not parse makes the whole loop throw. *)
Lemma getLastMails_loop_fails (mailbox : Mailbox) (msgs : list FetchMessageObject)
    (mails : list Mail) (st : Imap) (bad : FetchMessageObject) :
  bad ∈ msgs ->
  lastUid mailbox < msg_uid bad ->
  simpleParser (world st) (msg_headers bad) = Throw ->
  ImapImpl.getLastMails_loop mailbox msgs mails st = (Throw, st).
Proof.
  intros Hin Hnew Hfail. revert mails.
  induction msgs as [|msg msgs IH]; intros mails; [by apply elem_of_nil in Hin|].
  cbn [ImapImpl.getLastMails_loop].
  apply elem_of_cons in Hin as [<-|Hin].
  - destruct (Z.gtb_spec (msg_uid bad) (lastUid mailbox)); [|lia].
    unfold bind. by rewrite getNewMail_headers_fail.
  - destruct (msg_uid msg >? lastUid mailbox); [|by apply IH].
    unfold bind. pose proof (getNewMail_state (path mailbox) msg st) as Hst.
    destruct (ImapImpl.getNewMail (path mailbox) msg st) as [[mail|] st1]; simpl in Hst;
      subst st1; [by apply IH|reflexivity].
Qed.

(** X20: a poll delivers all the new messages or none: when one message
    above the watermark does not parse, nothing is emitted, not even for the
    messages that parsed before it, and the watermark does not move; the lock
    has been released and the poll returns normally. *)
Theorem poll_is_all_or_nothing
    (mailboxToWatch : string) (st : Imap) (mailbox : Mailbox)
    (tl : list (completion bool)) (msgs : list FetchMessageObject)
    (tf : list (completion (list FetchMessageObject))) (bad : FetchMessageObject) :
  mailboxes st !! mailboxToWatch = Some mailbox ->
  lock_tape (world st) = Normal true :: tl ->
  fetch_tape (world st) = Normal msgs :: tf ->
  bad ∈ msgs ->
  lastUid mailbox < msg_uid bad ->
  simpleParser (world st) (msg_headers bad) = Throw ->
  (ImapImpl.watchMailbox mailboxToWatch st).1 = Normal tt /\
  mailboxes (ImapImpl.watchMailbox mailboxToWatch st).2 = mailboxes st /\
  arrived (performed st (ImapImpl.watchMailbox mailboxToWatch st).2) = [] /\
  count_releases (performed st (ImapImpl.watchMailbox mailboxToWatch st).2) = 1%nat.
Proof.
  intros Hmailbox Hlock Hfetch Hin Hnew Hfail.
  set (st1 := after_search (path mailbox) (RangeString "1:*") tl tf st).
  assert (ImapImpl.watchMailbox mailboxToWatch st
          = log (LogErrorWatching mailboxToWatch) st1) as ->.
  { unfold ImapImpl.watchMailbox, try_catch, bind, get. rewrite Hmailbox.
    unfold ImapImpl.getLastMails, bind.
    rewrite (search_granted _ _ _ tl msgs tf Hlock Hfetch). fold st1.
    rewrite (getLastMails_loop_fails mailbox msgs [] st1 bad Hin Hnew);
      [reflexivity|by destruct st as [? ? ? []]]. }
  unfold log, performed, count_releases.
  destruct (logging (config st1)) as [[|]|]; simpl;
    rewrite <- ?app_assoc, drop_app_length; by repeat split.
Qed.

Lemma poll_is_all_or_nothing_witness :
  (ImapImpl.watchMailbox "INBOX" Scenario.inbox_with_broken).1 = Normal tt /\
  mailboxes (ImapImpl.watchMailbox "INBOX" Scenario.inbox_with_broken).2
  = mailboxes Scenario.inbox_with_broken /\
  arrived (performed Scenario.inbox_with_broken
             (ImapImpl.watchMailbox "INBOX" Scenario.inbox_with_broken).2) = [] /\
  count_releases (performed Scenario.inbox_with_broken
                    (ImapImpl.watchMailbox "INBOX" Scenario.inbox_with_broken).2) = 1%nat.
Proof.
  apply (poll_is_all_or_nothing "INBOX" Scenario.inbox_with_broken
           {| path := "INBOX"; lastUid := 1 |} []
           [Scenario.message 2; Scenario.broken_message 3] [] (Scenario.broken_message 3)).
  - reflexivity.
  - reflexivity.
  - reflexivity.
  - set_solver.
  - simpl. lia.
  - reflexivity.
Defined.

(** ** The content heuristic *)

Lemma append_snoc (cur : string) (c : ascii) (s : string) :
  ((cur ++ String c EmptyString) ++ s)%string = (cur ++ String c s)%string.
Proof.
  induction cur as [|a cur IH]; [reflexivity|].
  change (String a ((cur ++ String c EmptyString) ++ s)%string
          = String a (cur ++ String c s)%string).
  by rewrite IH.
Qed.

Lemma append_empty (s : string) : (s ++ "")%string = s.
Proof.
  induction s as [|a s IH]; [reflexivity|].
  change (String a (s ++ "")%string = String a s). by rewrite IH.
Qed.

(** On a text without line break, splitting at line breaks yields the text
    as its single piece. *)
Lemma split_go_no_break (text cur : string) :
  has_line_break text = false ->
  JsString.split_go JsString.LF 0 cur text = [(cur ++ text)%string].
Proof.
  revert cur. induction text as [|c text IH]; intros cur Hno.
  - simpl. by rewrite append_empty.
  - unfold has_line_break in Hno. simpl in Hno.
    apply orb_false_iff in Hno as [Hc Hno].
    cbn [JsString.split_go]. unfold JsString.LF at 1. cbn [String.prefix].
    destruct (ascii_dec "010" c) as [<-|_]; [discriminate Hc|].
    by rewrite (IH _ Hno), append_snoc.
Qed.

(** X21: a text without line break has empty content: the line that should
    give the separator is missing, the heuristic throws and the [catch] returns
    the empty string, so that a one-line mail is built with empty content. *)
Theorem parseContent_single_line (text : string) :
  has_line_break text = false ->
  MailImpl.parseContent (Some text) = "" /\
  forall p msg parsed,
    pm_text parsed = Some text ->
    content (MailImpl.new_Mail p msg parsed) = "".
Proof.
  intros Hno.
  assert (MailImpl.parseContent (Some text) = "") as Hempty.
  { unfold MailImpl.parseContent, MailImpl.parseContent_try, JsString.split.
    unfold JsString.LF at 1. fold JsString.LF.
    by rewrite (split_go_no_break text "" Hno). }
  split; [exact Hempty|].
  intros p msg parsed Htext. simpl. rewrite Htext.
  destruct text as [|c text]; [reflexivity|exact Hempty].
Qed.

Lemma parseContent_single_line_witness :
  MailImpl.parseContent (Some "See you at noon.") = "" /\
  forall p msg parsed,
    pm_text parsed = Some "See you at noon." ->
    content (MailImpl.new_Mail p msg parsed) = "".
Proof.
  apply (parseContent_single_line "See you at noon."). reflexivity.
Defined.

Lemma prefix_empty (s : string) : String.prefix "" s = true.
Proof. by destruct s. Qed.

Lemma prefix_cons (c : ascii) (pre s : string) :
  String.prefix (String c pre) (String c s) = String.prefix pre s.
Proof. simpl. by destruct (ascii_dec c c). Qed.

Lemma head_split_go_prefix (sep : string) (skip : nat) (cur s : string) :
  exists pre,
    head (JsString.split_go sep skip cur s) = Some (cur ++ pre)%string /\
    (skip = 0%nat -> String.prefix pre s = true).
Proof.
  revert skip cur. induction s as [|c s IH]; intros skip cur.
  - exists ""%string. simpl. by rewrite append_empty.
  - cbn [JsString.split_go]. destruct skip as [|k].
    + destruct (String.prefix sep (String c s)).
      * exists ""%string. rewrite append_empty. split; [reflexivity|].
        intros _. apply prefix_empty.
      * destruct (IH 0%nat (cur ++ String c "")%string) as (pre & Hhead & Hpre).
        exists (String c pre). rewrite Hhead, append_snoc. split; [reflexivity|].
        intros _. rewrite prefix_cons. by apply Hpre.
    + destruct (IH k cur) as (pre & Hhead & _). exists pre. by split.
Qed.

Lemma head_split_prefix (sep s piece : string) :
  head (JsString.split sep s) = Some piece -> String.prefix piece s = true.
Proof.
  unfold JsString.split. destruct sep as [|a sep].
  - destruct s as [|c s]; [discriminate|]. intros Hhead.
    assert (piece = String c "") as -> by (simpl in Hhead; congruence).
    rewrite prefix_cons. apply prefix_empty.
  - destruct (head_split_go_prefix (String a sep) 0 "" s) as (pre & Hhead & Hpre).
    rewrite Hhead. simpl. intros [= <-]. by apply Hpre.
Qed.

(** X22: the content is always the trimmed form of a prefix of the text:
    the heuristic only cuts the text at some point and trims what comes
    before. *)
Theorem parseContent_is_trimmed_prefix (text : string) :
  exists pre,
    String.prefix pre text = true /\
    MailImpl.parseContent (Some text) = JsString.trim pre.
Proof.
  unfold MailImpl.parseContent, MailImpl.parseContent_try.
  destruct (last (removelast (JsString.split JsString.LF text))) as [line|];
    [|exists ""%string; split; [apply prefix_empty|reflexivity]].
  destruct (head (JsString.split (JsString.slice_0_m2 line) text)) as [piece|] eqn:Hhead;
    [|exists ""%string; split; [apply prefix_empty|reflexivity]].
  exists piece. split; [|reflexivity]. by apply head_split_prefix in Hhead.
Qed.

Lemma trimStart_head (s : string) :
  JsString.trimStart s = ""%string \/
  exists c rest, JsString.trimStart s = String c rest /\ JsString.is_space c = false.
Proof.
  induction s as [|c s IH]; [by left|]. cbn [JsString.trimStart].
  destruct (JsString.is_space c) eqn:Hc; [exact IH|]. right. by exists c, s.
Qed.

Lemma trimEnd_idem (s : string) : JsString.trimEnd (JsString.trimEnd s) = JsString.trimEnd s.
Proof.
  induction s as [|c s IH]; [reflexivity|]. cbn [JsString.trimEnd].
  destruct (JsString.trimEnd s) as [|d t] eqn:Ht.
  - destruct (JsString.is_space c) eqn:Hc; [reflexivity|].
    cbn [JsString.trimEnd]. by rewrite Hc.
  - change (JsString.trimEnd (String c (String d t))) with
      (match JsString.trimEnd (String d t) with
       | EmptyString => if JsString.is_space c then EmptyString else String c EmptyString
       | u => String c u
       end).
    by rewrite IH.
Qed.

Lemma trim_idem (s : string) : JsString.trim (JsString.trim s) = JsString.trim s.
Proof.
  unfold JsString.trim.
  destruct (trimStart_head s) as [->|(c & rest & -> & Hc)]; [reflexivity|].
  assert (JsString.trimStart (JsString.trimEnd (String c rest))
          = JsString.trimEnd (String c rest)) as ->; [|apply trimEnd_idem].
  cbn [JsString.trimEnd].
  destruct (JsString.trimEnd rest); rewrite ?Hc; cbn [JsString.trimStart]; by rewrite Hc.
Qed.

(** X23: the content never starts nor ends with white space: trimming it
    again changes nothing. *)
Theorem parseContent_is_trimmed (text : option string) :
  JsString.trim (MailImpl.parseContent text) = MailImpl.parseContent text.
Proof.
  unfold MailImpl.parseContent, MailImpl.parseContent_try.
  destruct text as [text|]; [|reflexivity].
  destruct (last (removelast (JsString.split JsString.LF text))) as [line|]; [|reflexivity].
  destruct (head (JsString.split (JsString.slice_0_m2 line) text)) as [piece|];
    [|reflexivity].
  apply trim_idem.
Qed.

(** ** Instances for the watermark lemmas *)

Lemma polls_monotone_witness :
  exists w',
    watermark "INBOX" (polls ["INBOX"; "INBOX"] (Scenario.inbox_polled [5; 3] [5; 3])).2
    = Some w' /\ 1 <= w'.
Proof.
  apply (polls_monotone ["INBOX"; "INBOX"] (Scenario.inbox_polled [5; 3] [5; 3]) "INBOX" 1).
  - intros key mailbox Hlookup. simpl in Hlookup.
    apply lookup_singleton_Some in Hlookup as [<- <-]. reflexivity.
  - reflexivity.
Defined.

Lemma polls_sorted_witness :
  watermark "INBOX"
    (polls (replicate (length [Scenario.message <$> [1; 2; 3];
                               Scenario.message <$> [1; 2; 3; 4; 5]]) "INBOX")
       (Scenario.inbox_polled [1; 2; 3] [1; 2; 3; 4; 5])).2
  = Some (max_list 1 (msg_uid <$> concat [Scenario.message <$> [1; 2; 3];
                                          Scenario.message <$> [1; 2; 3; 4; 5]])).
Proof.
  apply (polls_sorted_watermark_is_max "INBOX"
           [Scenario.message <$> [1; 2; 3]; Scenario.message <$> [1; 2; 3; 4; 5]]
           (Scenario.inbox_polled [1; 2; 3] [1; 2; 3; 4; 5]) 1 [] []).
  - reflexivity.
  - reflexivity.
  - reflexivity.
  - intros source. eexists. reflexivity.
  - repeat (constructor; simpl; try lia).
Defined.
